(** * A shallow embedding of [solution.cc]: the LRU cache and the TCB key format

    The development follows the source file top-down:
    - [LRU]: the class template [network::cache::LRUCache<K, V>]
      ([Put], [Get], [Exists], [Size], [Evict] and the constructor);
    - [TCB]: the static helpers [Combined], [Tokenize] and [Retrive] of
      [network::TCB], with the [std::string] and [std::stoi] calls they
      make;
    - [Examples]: the caches of [main];
    - [LRU_facts] and [TCB_facts]: the properties;
    - [LRU_laws], [TCB_laws] and [TCB_cache_laws]: further properties of
      the cache, of the key format and of the global [tcb_cache_].

    C++ behaviour that is not a value is kept explicit: a call either
    returns, throws an exception, or has undefined behaviour
    (dereferencing [end()], [pop_back] on an empty list, [operator[]]
    out of range).  List iterators are node identities, so the Key
    Index really holds references into the Recency Sequence; a
    callback is observed through the pairs it is called with and
    through whether it returns or throws. *)

From Stdlib Require Import ZArith Ascii String.
From stdpp Require Import gmap strings list fin_maps relations.

(** ** Outcomes of a call *)

(** The exceptions that can leave a call of this file: [range_error] is
    thrown by [Get], [invalid_argument] and [out_of_range] by the
    standard library ([std::stoi], [substr]), and [callback_failure]
    stands for whatever a user-supplied [CleanUp] throws. *)
Inductive exception : Type :=
| range_error (what : string)
| invalid_argument (what : string)
| out_of_range (what : string)
| callback_failure (what : string).

Inductive result (A : Type) : Type :=
| Returned (a : A)
| Thrown (e : exception)
| Undefined.
Arguments Returned {A} a.
Arguments Thrown {A} e.
Arguments Undefined {A}.

Module LRU.
(** A reference argument ([const K&], [const V&]) or result: it refers
    to an object that is no part of the cache ([elsewhere]) or to the
    member of the pair held by the list node with the given identity
    ([in_node]), as the reference that [Get] returns does.  A reference
    into a node that is gone dangles, and reading through it is
    undefined behaviour. *)
Inductive ref (A : Type) : Type :=
| elsewhere (a : A)
| in_node (it : nat).
Arguments elsewhere {A} a.
Arguments in_node {A} it.

Section LRUCache.
Context {K : Type} `{Countable K} {V : Type}.

(** [typedef std::pair<K, V> KeyValuePair] *)
Abbreviation KeyValuePair := (K * V)%type (only parsing).

(** A [std::list] iterator is the identity of a list node: it stays
    valid while the node is moved ([splice]) and dies with the node
    ([erase], [pop_back]). *)
Abbreviation node := nat (only parsing).
Abbreviation KeyValuePairListIerator := node (only parsing).

(** [class CleanupCallback { virtual void CleanUp(const KeyValuePair&) = 0; }]
    What the cache can observe of an implementation is whether the call
    returns ([None]) or throws ([Some e]). *)
Record CleanupCallback : Type := { CleanUp : KeyValuePair → option exception }.

(** The data members.  [cache_items_list_] is listed front to back, each
    element with the identity of its node; [next_node_] is the
    allocator's state, the identity the next [push_front] will use. *)
Record LRUCache : Type := mkLRUCache {
  cache_items_list_ : list (node * KeyValuePair);
  cache_items_map_ : gmap K KeyValuePairListIerator;
  max_size_ : nat;
  callback_ : option CleanupCallback;
  next_node_ : node
}.

(** [LRUCache(size_t max_size, CleanupCallback<K, V>* callback)] *)
Definition LRUCache_new (max_size : nat) (callback : option CleanupCallback)
  : LRUCache :=
  {| cache_items_list_ := []; cache_items_map_ := ∅;
     max_size_ := max_size; callback_ := callback; next_node_ := 0 |}.

Definition with_list (l : list (node * KeyValuePair)) (c : LRUCache) : LRUCache :=
  {| cache_items_list_ := l; cache_items_map_ := cache_items_map_ c;
     max_size_ := max_size_ c; callback_ := callback_ c;
     next_node_ := next_node_ c |}.

Definition with_map (m : gmap K KeyValuePairListIerator) (c : LRUCache) : LRUCache :=
  {| cache_items_list_ := cache_items_list_ c; cache_items_map_ := m;
     max_size_ := max_size_ c; callback_ := callback_ c;
     next_node_ := next_node_ c |}.

(** ** The monad of member functions

    A member function runs on the object, may change it, leaves with a
    [result], and along the way calls [CleanUp]: the third component is
    the list of the pairs [CleanUp] was called with, in call order.  An
    exception keeps the changes made before it. *)
Definition M (A : Type) : Type :=
  LRUCache → result A * LRUCache * list KeyValuePair.

Definition M_ret {A} (a : A) : M A := λ c, (Returned a, c, []).

Definition M_bind {A B} (f : A → M B) (m : M A) : M B := λ c,
  match m c with
  | (Returned a, c', t) => let '(r, c'', t') := f a c' in (r, c'', t ++ t')
  | (Thrown e, c', t) => (Thrown e, c', t)
  | (Undefined, c', t) => (Undefined, c', t)
  end.

#[export] Instance M_mret : MRet M := @M_ret.
#[export] Instance M_mbind : MBind M := @M_bind.

Definition this : M LRUCache := λ c, (Returned c, c, []).
Definition throw {A} (e : exception) : M A := λ c, (Thrown e, c, []).

(** *** [std::list] operations on [cache_items_list_] *)

(** [cache_items_list_.push_front(e)]; returns [begin()]. *)
Definition list_push_front (e : KeyValuePair) : M KeyValuePairListIerator := λ c,
  let n := next_node_ c in
  (Returned n,
   {| cache_items_list_ := (n, e) :: cache_items_list_ c;
      cache_items_map_ := cache_items_map_ c;
      max_size_ := max_size_ c; callback_ := callback_ c;
      next_node_ := S n |}, []).

(** The element an iterator points to; [None] for a dangling iterator. *)
Fixpoint node_lookup (it : node) (l : list (node * KeyValuePair))
  : option KeyValuePair :=
  match l with
  | [] => None
  | (n, e) :: l' => if decide (n = it) then Some e else node_lookup it l'
  end.

(** The list without the node of an iterator; [None] for a dangling
    iterator. *)
Fixpoint node_remove (it : node) (l : list (node * KeyValuePair))
  : option (list (node * KeyValuePair)) :=
  match l with
  | [] => None
  | (n, e) :: l' =>
      if decide (n = it) then Some l' else cons (n, e) <$> node_remove it l'
  end.

(** [cache_items_list_.erase(it)] *)
Definition list_erase (it : KeyValuePairListIerator) : M unit := λ c,
  match node_remove it (cache_items_list_ c) with
  | Some l => (Returned tt, with_list l c, [])
  | None => (Undefined, c, [])
  end.

(** [cache_items_list_.splice(cache_items_list_.begin(), cache_items_list_, it)]:
    the node moves to the front and keeps its identity. *)
Definition list_splice_front (it : KeyValuePairListIerator) : M unit := λ c,
  match node_lookup it (cache_items_list_ c),
        node_remove it (cache_items_list_ c) with
  | Some e, Some l => (Returned tt, with_list ((it, e) :: l) c, [])
  | _, _ => (Undefined, c, [])
  end.

(** [*it] *)
Definition list_deref (it : KeyValuePairListIerator) : M KeyValuePair := λ c,
  match node_lookup it (cache_items_list_ c) with
  | Some e => (Returned e, c, [])
  | None => (Undefined, c, [])
  end.

(** [auto eldest = cache_items_list_.end(); eldest--;] *)
Definition list_end_prev : M KeyValuePairListIerator := λ c,
  match last (cache_items_list_ c) with
  | Some (n, _) => (Returned n, c, [])
  | None => (Undefined, c, [])
  end.

(** [cache_items_list_.pop_back()] *)
Definition list_pop_back : M unit := λ c,
  match last (cache_items_list_ c) with
  | Some _ => (Returned tt, with_list (removelast (cache_items_list_ c)) c, [])
  | None => (Undefined, c, [])
  end.

(** *** [std::unordered_map] operations on [cache_items_map_] *)

(** [cache_items_map_.find(key)], dereferenced: [it->second]. *)
Definition map_find (key : K) : M KeyValuePairListIerator := λ c,
  match cache_items_map_ c !! key with
  | Some it => (Returned it, c, [])
  | None => (Undefined, c, [])
  end.

(** [cache_items_map_.erase(...)], by iterator or by key. *)
Definition map_erase (key : K) : M unit := λ c,
  (Returned tt, with_map (delete key (cache_items_map_ c)) c, []).

(** [cache_items_map_[key] = it] *)
Definition map_assign (key : K) (it : KeyValuePairListIerator) : M unit := λ c,
  (Returned tt, with_map (<[key := it]> (cache_items_map_ c)) c, []).

(** [callback_->CleanUp(e)] *)
Definition call_CleanUp (cb : CleanupCallback) (e : KeyValuePair) : M unit := λ c,
  match CleanUp cb e with
  | None => (Returned tt, c, [e])
  | Some ex => (Thrown ex, c, [e])
  end.

(** ** The member functions *)

Definition Exists (c : LRUCache) (key : K) : bool :=
  bool_decide (is_Some (cache_items_map_ c !! key)).

Definition Size (c : LRUCache) : nat := size (cache_items_map_ c).

Definition Evict : M unit :=
  eldest ← list_end_prev;
  c ← this;
  match callback_ c with
  | Some cb => e ← list_deref eldest; call_CleanUp cb e
  | None => mret tt
  end;;
  e ← list_deref eldest;
  map_erase e.1;;
  list_pop_back.

Definition refers_to {A} (r : ref A) (it : node) : Prop :=
  match r with
  | in_node it' => it' = it
  | elsewhere _ => False
  end.

(** What a reference designates in a state, if anything. *)
Definition deref_key (c : LRUCache) (r : ref K) : option K :=
  match r with
  | elsewhere k => Some k
  | in_node it => fst <$> node_lookup it (cache_items_list_ c)
  end.

Definition deref_value (c : LRUCache) (r : ref V) : option V :=
  match r with
  | elsewhere v => Some v
  | in_node it => snd <$> node_lookup it (cache_items_list_ c)
  end.

(** Reading through a reference, at the moment the code does. *)
Definition read_key (r : ref K) : M K :=
  match r with
  | elsewhere k => mret k
  | in_node it => e ← list_deref it; mret e.1
  end.

Definition read_value (r : ref V) : M V :=
  match r with
  | elsewhere v => mret v
  | in_node it => e ← list_deref it; mret e.2
  end.

(** [void Put(const K& key, const V& value)].  [Exists(key)] and
    [find(key)] read [key] before the old node is erased;
    [KeyValuePair(key, value)] and [cache_items_map_[key]] read the
    arguments after it. *)
Definition Put_ref (key : ref K) (value : ref V) : M unit :=
  c ← this;
  (if bool_decide (Size c ≠ 0) then
     k ← read_key key;
     if Exists c k then
       it ← map_find k;
       list_erase it;;
       map_erase k
     else mret tt
   else mret tt);;
  k ← read_key key;
  v ← read_value value;
  it ← list_push_front (k, v);
  k ← read_key key;
  map_assign k it;;
  c ← this;
  if bool_decide (max_size_ c < Size c) then Evict else mret tt.

(** [Put(key, value)] for arguments that are no part of the cache: a
    literal, a temporary, a variable of the caller. *)
Definition Put (key : K) (value : V) : M unit :=
  Put_ref (elsewhere key) (elsewhere value).

Definition Get (key : K) : M V :=
  c ← this;
  if bool_decide (Size c ≠ 0) && Exists c key then
    it ← map_find key;
    list_splice_front it;;
    e ← list_deref it;
    mret e.2
  else throw (range_error "There is no such key in cache"%string).

(** [Get] returns [const V&]: [Get_ref] is the same call, giving the
    reference [it->second->second] itself, where [Get] gives the value
    read through it at once. *)
Definition Get_ref (key : K) : M (ref V) :=
  c ← this;
  if bool_decide (Size c ≠ 0) && Exists c key then
    it ← map_find key;
    list_splice_front it;;
    mret (in_node it)
  else throw (range_error "There is no such key in cache"%string).

(** The arguments of a [Put] designate [k] and [v], and neither refers
    into the node the Key Index has for [k], the one [Put] erases
    before it copies them. *)
Definition safe_arguments (c : LRUCache) (key : ref K) (value : ref V)
    (k : K) (v : V) : Prop :=
  deref_key c key = Some k ∧ deref_value c value = Some v
  ∧ ∀ it, cache_items_map_ c !! k = Some it →
      ¬ refers_to key it ∧ ¬ refers_to value it.

(** A caller that makes one [Put] after the other, as [main] does; an
    exception ends the run. *)
Fixpoint Put_all (kvs : list KeyValuePair) : M unit :=
  match kvs with
  | [] => mret tt
  | (k, v) :: kvs' => Put k v;; Put_all kvs'
  end.

(** ** Views of the state *)

(** The Recency Sequence: the entries, front (most recent) to back. *)
Definition items (c : LRUCache) : list KeyValuePair := (cache_items_list_ c).*2.
Definition keys (c : LRUCache) : list K := (items c).*1.
Definition nodes (c : LRUCache) : list node := (cache_items_list_ c).*1.

(** ** Reachable states *)

(** One public call, whatever its outcome.  A [Put] whose reference
    arguments are safe is the [Put] of the values they designate, hence
    such a step; one whose arguments are not is undefined and has no
    state after it. *)
Inductive step : LRUCache → LRUCache → Prop :=
| step_Put c k v r c' t : Put k v c = (r, c', t) → step c c'
| step_Get c k r c' t : Get k c = (r, c', t) → step c c'
| step_Exists c (k : K) b : Exists c k = b → step c c
| step_Size c n : Size c = n → step c c.

Definition reachable (c : LRUCache) : Prop :=
  ∃ max_size callback, rtc step (LRUCache_new max_size callback) c.

(** One public call in a run where every [Put] returns (a [Get] that
    throws [range_error] is caught by the caller and the run goes on). *)
Inductive step_returning : LRUCache → LRUCache → Prop :=
| step_returning_Put c k v c' t :
    Put k v c = (Returned tt, c', t) → step_returning c c'
| step_returning_Get c k r c' t : Get k c = (r, c', t) → step_returning c c'
| step_returning_Exists c (k : K) b : Exists c k = b → step_returning c c
| step_returning_Size c n : Size c = n → step_returning c c.

(** ** The representation invariant

    Live nodes are distinct and below the allocator's mark, no key is
    stored twice, and the Key Index maps exactly the keys of the list,
    each to the node that holds it. *)
Record Inv (c : LRUCache) : Prop := {
  Inv_nodes : NoDup (nodes c);
  Inv_keys : NoDup (keys c);
  Inv_map : ∀ k n, cache_items_map_ c !! k = Some n
              ↔ ∃ v, (n, (k, v)) ∈ cache_items_list_ c;
  Inv_fresh : ∀ n, n ∈ nodes c → n < next_node_ c
}.

(** ** The member functions on the Recency Sequence alone

    What [Evict], [Put] and [Get] do to the sequence of entries, written
    without nodes and index; the refinement lemmas show that, under the
    invariant, the member functions compute exactly this. *)

Definition drop_key (k : K) (its : list KeyValuePair) : list KeyValuePair :=
  filter (λ e, e.1 ≠ k) its.

Fixpoint find_key (k : K) (its : list KeyValuePair) : option V :=
  match its with
  | [] => None
  | (k', v) :: its' => if decide (k' = k) then Some v else find_key k its'
  end.

Definition Evict_items (cb : option CleanupCallback) (its : list KeyValuePair)
  : result unit * list KeyValuePair * list KeyValuePair :=
  match last its with
  | None => (Undefined, its, [])
  | Some e =>
      match cb with
      | None => (Returned tt, removelast its, [])
      | Some cb =>
          match CleanUp cb e with
          | None => (Returned tt, removelast its, [e])
          | Some ex => (Thrown ex, its, [e])
          end
      end
  end.

Definition Put_items (max_size : nat) (cb : option CleanupCallback)
    (k : K) (v : V) (its : list KeyValuePair)
  : result unit * list KeyValuePair * list KeyValuePair :=
  let its' := (k, v) :: drop_key k its in
  if decide (max_size < length its') then Evict_items cb its'
  else (Returned tt, its', []).

Definition Get_items (k : K) (its : list KeyValuePair)
  : result V * list KeyValuePair :=
  match find_key k its with
  | Some v => (Returned v, (k, v) :: drop_key k its)
  | None => (Thrown (range_error "There is no such key in cache"%string), its)
  end.

(** The callback returns on an entry (or there is no callback to call). *)
Definition returns_on (cb : option CleanupCallback) (e : KeyValuePair) : Prop :=
  match cb with
  | Some cb => CleanUp cb e = None
  | None => True
  end.

(** The calls of [CleanUp] a run makes when it evicts the entries [es]. *)
Definition cleanups (cb : option CleanupCallback) (es : list KeyValuePair)
  : list KeyValuePair :=
  match cb with
  | Some _ => es
  | None => []
  end.

End LRUCache.
End LRU.

Module TCB.

(** [std::string] as its sequence of [char]s; [size_t] as [N], with
    [string::npos] the largest value. *)
Abbreviation cstring := (list ascii) (only parsing).

Definition npos : N := 18446744073709551615.

Definition size (str : cstring) : N := N.of_nat (length str).

(** [a - b] on [size_t]. *)
Definition size_t_sub (a b : N) : N := ((a + 2 ^ 64 - b) mod 2 ^ 64)%N.

(** [typedef pair<string, int> IpAndPortNumberPair], with [int] of 32
    bits. *)
Abbreviation IpAndPortNumberPair := (cstring * Z)%type (only parsing).
Abbreviation IpAndPortCombinedString := cstring (only parsing).

Definition INT_MIN : Z := - 2 ^ 31.
Definition INT_MAX : Z := 2 ^ 31 - 1.

(** *** The standard library calls the helpers make *)

(** [str.find_first_not_of(ch, pos)] *)
Definition find_first_not_of (str : cstring) (ch : ascii) (pos : N) : N :=
  if (size str <=? pos)%N then npos
  else match list_find (λ a, a ≠ ch) (drop (N.to_nat pos) str) with
       | Some (i, _) => (pos + N.of_nat i)%N
       | None => npos
       end.

(** [str.find(ch, pos)] *)
Definition find (str : cstring) (ch : ascii) (pos : N) : N :=
  if (size str <=? pos)%N then npos
  else match list_find (λ a, a = ch) (drop (N.to_nat pos) str) with
       | Some (i, _) => (pos + N.of_nat i)%N
       | None => npos
       end.

(** [str.substr(pos, count)]: throws when [pos > size()], and stops at
    the end of the string. *)
Definition substr (str : cstring) (pos count : N) : result cstring :=
  if (size str <? pos)%N then Thrown (out_of_range "basic_string::substr")
  else Returned (take (N.to_nat (N.min count (size str - pos)))
                      (drop (N.to_nat pos) str)).

(** [isspace] and [isdigit] in the "C" locale. *)
Definition isspace (a : ascii) : bool :=
  let n := N_of_ascii a in ((n =? 32) || ((9 <=? n) && (n <=? 13)))%N.

Definition isdigit (a : ascii) : bool :=
  let n := N_of_ascii a in ((48 <=? n) && (n <=? 57))%N.

Fixpoint skip_spaces (s : cstring) : cstring :=
  match s with
  | a :: s' => if isspace a then skip_spaces s' else s
  | [] => []
  end.

(** The value of the leading decimal digits of [s], continuing [acc]. *)
Fixpoint stoi_digits (s : cstring) (acc : Z) : Z :=
  match s with
  | a :: s' =>
      if isdigit a then stoi_digits s' (acc * 10 + (Z.of_N (N_of_ascii a) - 48))
      else acc
  | [] => acc
  end.

(** [std::stoi(str)]: leading white space, an optional sign, decimal
    digits; what follows the digits is ignored.  No digit where one is
    expected throws [invalid_argument], a value no [int] holds throws
    [out_of_range]. *)
Definition stoi (str : cstring) : result Z :=
  let s := skip_spaces str in
  let '(negative, s) :=
    match s with
    | "-"%char :: s' => (true, s')
    | "+"%char :: s' => (false, s')
    | _ => (false, s)
    end in
  match s with
  | a :: _ =>
      if isdigit a then
        let n := stoi_digits s 0 in
        let z := if negative then (- n)%Z else n in
        if ((z <? INT_MIN) || (INT_MAX <? z))%Z
        then Thrown (out_of_range "stoi")
        else Returned z
      else Thrown (invalid_argument "stoi")
  | [] => Thrown (invalid_argument "stoi")
  end.

(** The strings [stoi] converts: after white space and an optional sign
    comes a decimal digit. *)
Definition starts_with_number (str : cstring) : bool :=
  let s := match skip_spaces str with
           | "-"%char :: s' => s'
           | "+"%char :: s' => s'
           | s' => s'
           end in
  match s with
  | a :: _ => isdigit a
  | [] => false
  end.

(** [ss << n] for an integer: its decimal digits, most significant
    first.  [fuel] bounds the number of digits. *)
Definition digit_char (d : N) : ascii := ascii_of_N (48 + d).

Fixpoint show_digits (fuel : nat) (n : N) (acc : cstring) : cstring :=
  match fuel with
  | O => acc
  | S fuel' =>
      let acc' := digit_char (n mod 10) :: acc in
      if (n / 10 =? 0)%N then acc' else show_digits fuel' (n / 10) acc'
  end.

Definition show_N (n : N) : cstring :=
  show_digits (S (N.to_nat (N.log2 n))) n [].

Definition show_int (z : Z) : cstring :=
  if (z <? 0)%Z then "-"%char :: show_N (Z.to_N (- z)) else show_N (Z.to_N z).

(** *** The static member functions *)

(** [ss << key.first << ":" << key.second; return ss.str();] *)
Definition Combined (key : IpAndPortNumberPair) : IpAndPortCombinedString :=
  key.1 ++ [":"%char] ++ show_int key.2.

(** The [while (start != string::npos)] loop of [Tokenize]; [None] when
    [fuel] iterations were not enough. *)
Fixpoint Tokenize_loop (fuel : nat) (str : cstring) (delimeter : ascii)
    (start : N) (token_v : list cstring) : option (result (list cstring)) :=
  if (start =? npos)%N then Some (Returned token_v)
  else match fuel with
       | O => None
       | S fuel' =>
           let end_ := find str delimeter start in
           match substr str start (size_t_sub end_ start) with
           | Returned token =>
               Tokenize_loop fuel' str delimeter
                 (find_first_not_of str delimeter end_) (token_v ++ [token])
           | Thrown e => Some (Thrown e)
           | Undefined => Some Undefined
           end
       end.

(** Every iteration moves [start] forward, so [size() + 1] iterations
    are enough. *)
Definition Tokenize (str : cstring) (delimeter : ascii)
  : option (result (list cstring)) :=
  Tokenize_loop (S (length str)) str delimeter
    (find_first_not_of str delimeter 0) [].

(** [strs[0]] and [strs[1]] are unchecked [operator[]]: out of range is
    undefined behaviour. *)
Definition Retrive (key : IpAndPortCombinedString)
  : option (result IpAndPortNumberPair) :=
  match Tokenize key ":"%char with
  | None => None
  | Some (Returned strs) =>
      match strs !! 0, strs !! 1 with
      | Some first, Some second =>
          match stoi second with
          | Returned port => Some (Returned (first, port))
          | Thrown e => Some (Thrown e)
          | Undefined => Some Undefined
          end
      | _, _ => Some Undefined
      end
  | Some (Thrown e) => Some (Thrown e)
  | Some Undefined => Some Undefined
  end.

(** What [Tokenize] is to compute, by one pass over the string: the
    maximal runs of characters other than the delimiter, in order;
    [cur] is the run being read. *)
Fixpoint tokens_of (delimeter : ascii) (str : cstring) (cur : cstring)
  : list cstring :=
  match str with
  | [] => if decide (cur = []) then [] else [cur]
  | a :: str' =>
      if decide (a = delimeter)
      then (if decide (cur = []) then [] else [cur]) ++ tokens_of delimeter str' []
      else tokens_of delimeter str' (cur ++ [a])
  end.

(** *** The cache of connection records *)

(** [class TCB] has no data member. *)
Inductive TCB : Type := TCB_object.

(** [void Clear() const { }] *)
Definition Clear (self : TCB) : unit := tt.

(** [TCBCleanupCallback::CleanUp(pair) { pair.second.Clear(); }]: the
    call returns. *)
Definition TCBCleanupCallback
  : @LRU.CleanupCallback IpAndPortCombinedString TCB :=
  {| LRU.CleanUp := λ pair, let _ := Clear pair.2 in None |}.

(** [TCB::callback_ = new TCB::TCBCleanupCallback] and
    [TCB::tcb_cache_ = new LRUCache<IpAndPortCombinedString, TCB>(1, TCB::callback_)]:
    the initial state of the one cache all [TCB::Get] and [TCB::Put]
    calls work on. *)
Definition callback_ : @LRU.CleanupCallback IpAndPortCombinedString TCB :=
  TCBCleanupCallback.

Definition tcb_cache_ : @LRU.LRUCache IpAndPortCombinedString _ _ TCB :=
  LRU.LRUCache_new 1 (Some callback_).

(** [return tcb_cache_->Get(Combined(key));] *)
Definition Get (key : IpAndPortNumberPair)
  : @LRU.M IpAndPortCombinedString _ _ TCB TCB :=
  LRU.Get (Combined key).

(** [tcb_cache_->Put(Combined(key), tcb);] *)
Definition Put (key : IpAndPortNumberPair) (tcb : TCB)
  : @LRU.M IpAndPortCombinedString _ _ TCB unit :=
  LRU.Put (Combined key) tcb.

(** One call of [TCB::Get] or [TCB::Put], whatever its outcome. *)
Inductive tcb_step
  : relation (@LRU.LRUCache IpAndPortCombinedString _ _ TCB) :=
| tcb_step_Put c key tcb r c' t : Put key tcb c = (r, c', t) → tcb_step c c'
| tcb_step_Get c key r c' t : Get key c = (r, c', t) → tcb_step c c'.

End TCB.

(** ** Concrete caches, after [main] *)

Module Examples.
Import LRU.

(** [network::cache::LRUCache<int, string> cache_(1, nullptr);] *)
Definition main_cache : @LRUCache Z _ _ string := LRUCache_new 1 None.

(** ... after [cache_.Put(10, "My String"); cache_.Put(20, "test string");] *)
Definition main_cache_after_puts : @LRUCache Z _ _ string :=
  (Put_all [(10%Z, "My String"%string); (20%Z, "test string"%string)]
     main_cache).1.2.

(** A callback whose [CleanUp] returns, as [TCBCleanupCallback]'s does. *)
Definition quiet_callback : @CleanupCallback Z string :=
  {| CleanUp := λ _, None |}.

(** A callback whose [CleanUp] always throws. *)
Definition failing_callback : @CleanupCallback Z string :=
  {| CleanUp := λ _, Some (callback_failure "CleanUp failed") |}.


(** A cache of capacity 2 without callback, holding two entries: key 10
    in node 0 and key 20 in node 1. *)
Definition two_entry_cache : @LRUCache Z _ _ string :=
  (Put_all [(10%Z, "My String"%string); (20%Z, "test string"%string)]
     (LRUCache_new 2 None)).1.2.

(** A cache of capacity 1 with that callback, holding one entry. *)
Definition full_cache_failing_callback : @LRUCache Z _ _ string :=
  (Put 10%Z "My String"%string (LRUCache_new 1 (Some failing_callback))).1.2.

End Examples.

(** * Properties of the cache *)

Module LRU_facts.
Import LRU.
Section LRUCache.
Context {K : Type} `{Countable K} {V : Type}.

Abbreviation KeyValuePair := (K * V)%type (only parsing).
Abbreviation node := nat (only parsing).
Implicit Types (c : @LRUCache K _ _ V) (k : K) (v : V).
Implicit Types (cb callback : option (@CleanupCallback K V)).
Implicit Types (its : list KeyValuePair) (l : list (node * KeyValuePair)).

Lemma node_lookup_app (l1 l2 : list (node * KeyValuePair)) n e :
  n ∉ l1.*1 → node_lookup n (l1 ++ (n, e) :: l2) = Some e.
Proof.
  induction l1 as [|[m e'] l1 IH]; simpl; intros Hn.
  - by rewrite decide_True.
  - apply not_elem_of_cons in Hn as [Hne Hn].
    rewrite decide_False by done. by apply IH.
Qed.

Lemma node_remove_app (l1 l2 : list (node * KeyValuePair)) n e :
  n ∉ l1.*1 → node_remove n (l1 ++ (n, e) :: l2) = Some (l1 ++ l2).
Proof.
  induction l1 as [|[m e'] l1 IH]; simpl; intros Hn.
  - by rewrite decide_True.
  - apply not_elem_of_cons in Hn as [Hne Hn].
    rewrite decide_False by done. by rewrite IH.
Qed.

Lemma Inv_new max_size callback : Inv (LRUCache_new max_size callback).
Proof.
  split; simpl.
  - constructor.
  - constructor.
  - intros k n. rewrite lookup_empty. split; [done|].
    intros [v Hv]. by apply elem_of_nil in Hv.
  - intros n Hn. by apply elem_of_nil in Hn.
Qed.

(** What the invariant says about the two sides of an entry. *)
Lemma Inv_split c l1 l2 n k v :
  Inv c → cache_items_list_ c = l1 ++ (n, (k, v)) :: l2 →
  (n ∉ l1.*1) ∧ (n ∉ l2.*1) ∧ (k ∉ l1.*2.*1) ∧ (k ∉ l2.*2.*1).
Proof.
  intros HI Hl.
  pose proof (Inv_nodes c HI) as Hn. pose proof (Inv_keys c HI) as Hk.
  unfold nodes, keys, items in *. rewrite Hl in Hn, Hk.
  rewrite fmap_app, fmap_cons in Hn. rewrite !fmap_app, !fmap_cons in Hk.
  simpl in *.
  apply NoDup_app in Hn as (_ & Hn1 & Hn2). apply NoDup_cons in Hn2 as [Hn2 _].
  apply NoDup_app in Hk as (_ & Hk1 & Hk2). apply NoDup_cons in Hk2 as [Hk2 _].
  repeat split; try done.
  - intros Hx. apply (Hn1 _ Hx). left.
  - intros Hx. apply (Hk1 _ Hx). left.
Qed.

(** Removing one entry from both structures keeps the invariant: this is
    [erase]/[erase] in [Put] and [erase]/[pop_back] in [Evict]. *)
Lemma Inv_remove c l1 l2 n k v :
  Inv c → cache_items_list_ c = l1 ++ (n, (k, v)) :: l2 →
  Inv (with_map (delete k (cache_items_map_ c)) (with_list (l1 ++ l2) c)).
Proof.
  intros HI Hl.
  pose proof (Inv_nodes c HI) as Hn. pose proof (Inv_keys c HI) as Hk.
  unfold nodes, keys, items in Hn, Hk. rewrite Hl in Hn, Hk.
  rewrite fmap_app, fmap_cons in Hn. rewrite !fmap_app, !fmap_cons in Hk.
  simpl in Hn, Hk.
  apply NoDup_app in Hn as (Hn0 & Hn1 & Hn2). apply NoDup_cons in Hn2 as [Hn2 Hn3].
  apply NoDup_app in Hk as (Hk0 & Hk1 & Hk2). apply NoDup_cons in Hk2 as [Hk2 Hk3].
  split; unfold nodes, keys, items; simpl.
  - rewrite fmap_app. apply NoDup_app. repeat split; try done.
    intros x Hx1 Hx2. apply (Hn1 x Hx1). by right.
  - rewrite !fmap_app. apply NoDup_app. repeat split; try done.
    intros x Hx1 Hx2. apply (Hk1 x Hx1). by right.
  - intros k' n'. rewrite lookup_delete_Some, (Inv_map c HI), Hl. split.
    + intros [Hne [v' Hv']]. exists v'.
      rewrite elem_of_app, elem_of_cons in Hv'. rewrite elem_of_app.
      destruct Hv' as [?|[?|?]]; [by left|congruence|by right].
    + intros [v' Hv']. rewrite elem_of_app in Hv'. split.
      * intros <-. destruct Hv' as [Hv'|Hv'].
        -- apply (Hk1 k); [|left].
           apply list_elem_of_fmap. exists (k, v'). split; [done|].
           apply list_elem_of_fmap. by exists (n', (k, v')).
        -- apply Hk2.
           apply list_elem_of_fmap. exists (k, v'). split; [done|].
           apply list_elem_of_fmap. by exists (n', (k, v')).
      * exists v'. rewrite elem_of_app, elem_of_cons. tauto.
  - intros n' Hn'. apply (Inv_fresh c HI). unfold nodes. rewrite Hl.
    rewrite fmap_app in Hn'. rewrite fmap_app, fmap_cons. simpl.
    rewrite elem_of_app, elem_of_cons. rewrite elem_of_app in Hn'. tauto.
Qed.

Lemma elem_of_snd_fst (l : list (node * KeyValuePair)) k :
  k ∈ l.*2.*1 ↔ ∃ n v, (n, (k, v)) ∈ l.
Proof.
  split.
  - intros Hin. apply list_elem_of_fmap in Hin as ([k' v'] & Hk & Hin).
    apply list_elem_of_fmap in Hin as ([n' e'] & He & Hin).
    simpl in *. subst. eauto.
  - intros (n & v & Hin). apply list_elem_of_fmap. exists (k, v).
    split; [done|]. apply list_elem_of_fmap. by exists (n, (k, v)).
Qed.

Lemma Inv_lookup_keys c k :
  Inv c → is_Some (cache_items_map_ c !! k) ↔ k ∈ keys c.
Proof.
  intros HI. unfold keys, items. rewrite elem_of_snd_fst. split.
  - intros [n Hn]. apply (Inv_map c HI) in Hn. eauto.
  - intros (n & v & Hin). exists n. apply (Inv_map c HI). eauto.
Qed.

(** [push_front] followed by [cache_items_map_[key] = begin()], for a
    key the index does not hold. *)
Lemma Inv_push c k v :
  Inv c → cache_items_map_ c !! k = None →
  Inv {| cache_items_list_ := (next_node_ c, (k, v)) :: cache_items_list_ c;
         cache_items_map_ := <[k := next_node_ c]> (cache_items_map_ c);
         max_size_ := max_size_ c; callback_ := callback_ c;
         next_node_ := S (next_node_ c) |}.
Proof.
  intros HI Hk. split; unfold nodes, keys, items; simpl.
  - apply NoDup_cons. split; [|apply (Inv_nodes c HI)].
    intros Hin. apply (Inv_fresh c HI) in Hin. lia.
  - apply NoDup_cons. split; [|apply (Inv_keys c HI)].
    intros Hin. apply (Inv_lookup_keys c k HI) in Hin as [n' Hn'].
    congruence.
  - intros k' n'. rewrite lookup_insert_Some, (Inv_map c HI). split.
    + intros [[<- <-]|[Hne [v' Hv']]]; [exists v; left|exists v'; by right].
    + intros [v' Hv']. apply elem_of_cons in Hv' as [Heq|Hv'].
      * left. by inversion Heq.
      * right. split; [|eauto]. intros <-.
        assert (cache_items_map_ c !! k = Some n') as Hs
          by (apply (Inv_map c HI); eauto).
        congruence.
  - intros n' Hn'. apply elem_of_cons in Hn' as [->|Hn']; [lia|].
    apply (Inv_fresh c HI) in Hn'. lia.
Qed.

Lemma Inv_map_to_list c :
  Inv c →
  map_to_list (cache_items_map_ c) ≡ₚ (λ x, (x.2.1, x.1)) <$> cache_items_list_ c.
Proof.
  intros HI. apply NoDup_Permutation.
  - apply NoDup_map_to_list.
  - apply (NoDup_fmap_1 fst). rewrite <- list_fmap_compose.
    pose proof (Inv_keys c HI) as Hk. unfold keys, items in Hk.
    rewrite <- list_fmap_compose in Hk. exact Hk.
  - intros [k n]. rewrite elem_of_map_to_list, (Inv_map c HI). split.
    + intros [v Hv]. apply list_elem_of_fmap. by exists (n, (k, v)).
    + intros Hx. apply list_elem_of_fmap in Hx as ([n' [k' v']] & Heq & Hin).
      simpl in Heq. inversion Heq; subst. eauto.
Qed.

(** [Size()], the size of the Key Index, is the length of the Recency
    Sequence. *)
Lemma Inv_Size c : Inv c → Size c = length (cache_items_list_ c).
Proof.
  intros HI. unfold Size. rewrite <- length_map_to_list.
  rewrite (Inv_map_to_list c HI). apply length_fmap.
Qed.

Lemma Inv_Size_items c : Inv c → Size c = length (items c).
Proof. intros HI. unfold items. rewrite length_fmap. by apply Inv_Size. Qed.

(** [Exists] answers membership in the Recency Sequence. *)
Lemma Inv_Exists c k : Inv c → Exists c k = bool_decide (k ∈ keys c).
Proof.
  intros HI. unfold Exists. apply bool_decide_ext. by apply Inv_lookup_keys.
Qed.

Lemma Inv_dom c : Inv c → dom (cache_items_map_ c) = list_to_set (keys c).
Proof.
  intros HI. apply set_eq. intros k.
  rewrite elem_of_dom, elem_of_list_to_set. by apply Inv_lookup_keys.
Qed.

Lemma drop_key_absent k its : k ∉ its.*1 → drop_key k its = its.
Proof.
  unfold drop_key. induction its as [|[k' v'] its IH]; simpl; [done|].
  intros Hk. apply not_elem_of_cons in Hk as [Hne Hk].
  rewrite filter_cons_True by (simpl; congruence). f_equal. by apply IH.
Qed.

Lemma drop_key_split k v i1 i2 :
  k ∉ i1.*1 → k ∉ i2.*1 → drop_key k (i1 ++ (k, v) :: i2) = i1 ++ i2.
Proof.
  intros H1 H2. unfold drop_key. rewrite filter_app, filter_cons_False.
  - f_equal; by apply drop_key_absent.
  - simpl. by intros Hne.
Qed.

(** ** Refinement: the member functions compute the sequence functions *)

Ltac run_M :=
  unfold mbind, M_mbind, M_bind, mret, M_mret, M_ret, this, throw,
    list_end_prev, list_deref, list_pop_back, list_erase, list_push_front,
    list_splice_front, map_find, map_erase, map_assign, call_CleanUp,
    with_map, with_list; simpl.

#[local] Arguments removelast : simpl never.

Lemma bind_Returned {A B} (m : M A) (f : A → M B) c a c1 :
  m c = (Returned a, c1, []) → (m ≫= f) c = f a c1.
Proof.
  intros Hm. unfold mbind, M_mbind, M_bind. rewrite Hm.
  by destruct (f a c1) as [[r c2] t].
Qed.

Lemma Evict_refines c r c' t :
  Inv c → Evict c = (r, c', t) →
  (r, items c', t) = Evict_items (callback_ c) (items c)
  ∧ Inv c' ∧ max_size_ c' = max_size_ c ∧ callback_ c' = callback_ c.
Proof.
  intros HI. unfold Evict, Evict_items, items. run_M.
  rewrite fmap_last.
  destruct (last (cache_items_list_ c)) as [[n [k v]]|] eqn:Hlast; simpl.
  2:{ intros [= <- <- <-]. done. }
  destruct (proj1 (last_Some _ _) Hlast) as [l' Hl].
  destruct (Inv_split c l' [] n k v HI Hl) as (Hn & _ & Hk & _).
  assert (node_lookup n (cache_items_list_ c) = Some (k, v)) as Hlk
    by (rewrite Hl; by apply node_lookup_app).
  assert (removelast (cache_items_list_ c) = l') as Hrm
    by (rewrite Hl; apply removelast_last).
  assert (removelast (cache_items_list_ c).*2 = l'.*2) as Hrm2.
  { rewrite Hl, fmap_app. simpl. apply removelast_last. }
  pose proof (Inv_remove c l' [] n k v HI Hl) as HI'.
  rewrite app_nil_r in HI'.
  destruct (callback_ c) as [cb|] eqn:Hcb; simpl.
  - rewrite Hlk. destruct (CleanUp cb (k, v)) as [ex|] eqn:Hex; simpl.
    + intros [= <- <- <-]. done.
    + rewrite Hlk. simpl. rewrite Hlast, Hrm.
      intros [= <- <- <-]. simpl. by rewrite Hrm2.
  - rewrite Hlk. simpl. rewrite Hlast, Hrm.
    intros [= <- <- <-]. simpl. by rewrite Hrm2.
Qed.

(** [Size() && Exists(key)]: the first test never decides. *)
Lemma guard_Exists c k : bool_decide (Size c ≠ 0) && Exists c k = Exists c k.
Proof.
  destruct (Exists c k) eqn:HE; [|by rewrite andb_false_r].
  rewrite andb_true_r. apply bool_decide_eq_true.
  apply bool_decide_eq_true in HE as [n Hn]. unfold Size. intros Hz.
  apply map_size_empty_inv in Hz. rewrite Hz, lookup_empty in Hn. done.
Qed.

(** The second half of [Put]: insertion at the front, then the capacity
    test. *)
Lemma Put_insert_refines c k v r c' t :
  Inv c → cache_items_map_ c !! k = None →
  (it ← list_push_front (k, v);
   map_assign k it;;
   c ← this;
   if bool_decide (max_size_ c < Size c) then Evict else mret tt) c = (r, c', t) →
  (r, items c', t) =
    (if decide (max_size_ c < length ((k, v) :: items c))
     then Evict_items (callback_ c) ((k, v) :: items c)
     else (Returned tt, (k, v) :: items c, []))
  ∧ Inv c' ∧ max_size_ c' = max_size_ c ∧ callback_ c' = callback_ c.
Proof.
  intros HI Hk. pose proof (Inv_push c k v HI Hk) as HI2.
  pose proof (Inv_Size_items _ HI2) as Hsz.
  run_M. rewrite Hsz. unfold items at 1. simpl.
  fold (items c). case_bool_decide as Hlt.
  - rewrite decide_True by done.
    match goal with |- context [Evict ?c2] =>
      destruct (Evict c2) as [[r2 c2'] t2] eqn:HEv end.
    apply Evict_refines in HEv as (Hr & HI' & Hm & Hc); [|done].
    simpl in *. intros [= <- <- <-]. by rewrite Hr.
  - rewrite decide_False by done. intros [= <- <- <-]. done.
Qed.

Lemma bind_ext {A B} (m : M A) (f g : A → M B) c :
  (∀ a c', f a c' = g a c') → (m ≫= f) c = (m ≫= g) c.
Proof.
  intros Hfg. unfold mbind, M_mbind, M_bind.
  destruct (m c) as [[[a|e|] c'] t]; [|done..]. by rewrite Hfg.
Qed.

Lemma bind_ext_at {A B} (m : M A) (f g : A → M B) c :
  (∀ a c' t, m c = (Returned a, c', t) → f a c' = g a c') →
  (m ≫= f) c = (m ≫= g) c.
Proof.
  intros Hfg. unfold mbind, M_mbind, M_bind.
  destruct (m c) as [[[a|e|] c'] t] eqn:Hm; [|done..].
  by rewrite (Hfg a c' t eq_refl).
Qed.

Lemma bind_cong {A B} (m1 m2 : M A) (f : A → M B) c :
  m1 c = m2 c → (m1 ≫= f) c = (m2 ≫= f) c.
Proof. intros Hm. unfold mbind, M_mbind, M_bind. by rewrite Hm. Qed.

(** The second half of [Put], once the arguments are read. *)
Lemma Put_insert_read (key : ref K) (value : ref V) k v c :
  read_key key c = (Returned k, c, []) →
  read_value value c = (Returned v, c, []) →
  (∀ it, read_key key
           {| cache_items_list_ := (it, (k, v)) :: cache_items_list_ c;
              cache_items_map_ := cache_items_map_ c;
              max_size_ := max_size_ c; callback_ := callback_ c;
              next_node_ := S it |}
         = (Returned k,
            {| cache_items_list_ := (it, (k, v)) :: cache_items_list_ c;
               cache_items_map_ := cache_items_map_ c;
               max_size_ := max_size_ c; callback_ := callback_ c;
               next_node_ := S it |}, [])) →
  (k ← read_key key;
   v ← read_value value;
   it ← list_push_front (k, v);
   k ← read_key key;
   map_assign k it;;
   c ← this;
   if bool_decide (max_size_ c < Size c) then Evict else mret tt) c
  = (it ← list_push_front (k, v);
     map_assign k it;;
     c ← this;
     if bool_decide (max_size_ c < Size c) then Evict else mret tt) c.
Proof.
  intros Hk Hv Hk'.
  rewrite (bind_Returned (read_key key) _ c k c Hk).
  rewrite (bind_Returned (read_value value) _ c v c Hv).
  apply bind_ext_at. intros it c' t [= <- <- <-].
  by rewrite (bind_Returned (read_key key) _ _ k _ (Hk' (next_node_ c))).
Qed.

(** [Put] with the reads of its arguments done. *)
Lemma Put_unfold k v c :
  Put k v c =
    (c ← this;
     (if bool_decide (Size c ≠ 0) && Exists c k then
        it ← map_find k;
        list_erase it;;
        map_erase k
      else mret tt);;
     it ← list_push_front (k, v);
     map_assign k it;;
     c ← this;
     if bool_decide (max_size_ c < Size c) then Evict else mret tt) c.
Proof.
  unfold Put, Put_ref. apply bind_ext. intros c0 c1.
  trans (((if bool_decide (Size c0 ≠ 0) then
            k' ← read_key (elsewhere k);
            if Exists c0 k' then
              it ← map_find k'; list_erase it;; map_erase k'
            else mret tt
          else mret tt);;
         it ← list_push_front (k, v);
         map_assign k it;;
         c ← this;
         if bool_decide (max_size_ c < Size c) then Evict else mret tt) c1).
  { apply bind_ext. intros u c2. by apply Put_insert_read. }
  apply bind_cong. simpl read_key.
  destruct (bool_decide (Size c0 ≠ 0)); [|done].
  by rewrite (bind_Returned (read_key (elsewhere k)) _ c1 k c1 eq_refl).
Qed.

Lemma Put_refines c k v r c' t :
  Inv c → Put k v c = (r, c', t) →
  (r, items c', t) = Put_items (max_size_ c) (callback_ c) k v (items c)
  ∧ Inv c' ∧ max_size_ c' = max_size_ c ∧ callback_ c' = callback_ c.
Proof.
  intros HI. rewrite Put_unfold. unfold Put_items.
  rewrite (bind_Returned this _ c c c eq_refl), guard_Exists.
  destruct (Exists c k) eqn:HE.
  - apply bool_decide_eq_true in HE as [n Hn].
    destruct (proj1 (Inv_map c HI k n) Hn) as [v0 Hin].
    apply list_elem_of_split in Hin as (l1 & l2 & Hl).
    destruct (Inv_split c l1 l2 n k v0 HI Hl) as (Hn1 & Hn2 & Hk1 & Hk2).
    pose proof (Inv_remove c l1 l2 n k v0 HI Hl) as HI1.
    assert (drop_key k (items c) = (l1 ++ l2).*2) as Hdrop.
    { unfold items. rewrite Hl, !fmap_app, fmap_cons. simpl.
      by apply drop_key_split. }
    erewrite bind_Returned; cycle 1.
    { run_M. rewrite Hn. simpl. rewrite Hl, node_remove_app by done.
      simpl. reflexivity. }
    intros Hput. apply Put_insert_refines in Hput; simpl; cycle 1.
    { exact HI1. }
    { apply lookup_delete_eq. }
    simpl in Hput. unfold items at 2 3 4 in Hput. simpl in Hput.
    by rewrite Hdrop.
  - apply bool_decide_eq_false in HE. rewrite <- eq_None_not_Some in HE.
    assert (drop_key k (items c) = items c) as Hdrop.
    { apply drop_key_absent. fold (keys c).
      rewrite <- (Inv_lookup_keys c k HI), HE. by intros [? ?]. }
    rewrite (bind_Returned (mret tt) _ c tt c eq_refl).
    intros Hput. apply Put_insert_refines in Hput; [|done..].
    by rewrite Hdrop.
Qed.

(** Reordering the list (what [splice] does) keeps the invariant. *)
Lemma Inv_permute c l :
  Inv c → l ≡ₚ cache_items_list_ c → Inv (with_list l c).
Proof.
  intros HI Hp. split; unfold nodes, keys, items; simpl.
  - rewrite Hp. apply (Inv_nodes c HI).
  - rewrite Hp. apply (Inv_keys c HI).
  - intros k n. rewrite (Inv_map c HI). by setoid_rewrite Hp.
  - intros n. rewrite Hp. apply (Inv_fresh c HI).
Qed.

Lemma find_key_absent k (its : list KeyValuePair) :
  k ∉ its.*1 → find_key k its = None.
Proof.
  induction its as [|[k' v'] its IH]; simpl; [done|].
  intros Hk. apply not_elem_of_cons in Hk as [Hne Hk].
  rewrite decide_False by congruence. by apply IH.
Qed.

Lemma find_key_split k v (i1 i2 : list KeyValuePair) :
  k ∉ i1.*1 → find_key k (i1 ++ (k, v) :: i2) = Some v.
Proof.
  induction i1 as [|[k' v'] i1 IH]; simpl; intros Hk.
  - by rewrite decide_True.
  - apply not_elem_of_cons in Hk as [Hne Hk].
    rewrite decide_False by congruence. by apply IH.
Qed.

(** [Get] on a key the index does not hold: this needs no invariant. *)
Lemma Get_absent c k :
  Exists c k = false →
  Get k c = (Thrown (range_error "There is no such key in cache"), c, []).
Proof.
  intros HE. unfold Get.
  rewrite (bind_Returned this _ c c c eq_refl), guard_Exists, HE. done.
Qed.

Lemma Get_refines c k r c' t :
  Inv c → Get k c = (r, c', t) →
  t = [] ∧ (r, items c') = Get_items k (items c)
  ∧ Inv c' ∧ max_size_ c' = max_size_ c ∧ callback_ c' = callback_ c
  ∧ cache_items_map_ c' = cache_items_map_ c.
Proof.
  intros HI. destruct (Exists c k) eqn:HE.
  - unfold Get, Get_items.
    rewrite (bind_Returned this _ c c c eq_refl), guard_Exists, HE.
    apply bool_decide_eq_true in HE as [n Hn].
    destruct (proj1 (Inv_map c HI k n) Hn) as [v0 Hin].
    apply list_elem_of_split in Hin as (l1 & l2 & Hl).
    destruct (Inv_split c l1 l2 n k v0 HI Hl) as (Hn1 & Hn2 & Hk1 & Hk2).
    assert (Inv (with_list ((n, (k, v0)) :: l1 ++ l2) c)) as HI1.
    { apply Inv_permute; [done|]. rewrite Hl. apply Permutation_middle. }
    assert (items c = l1.*2 ++ (k, v0) :: l2.*2) as Hits.
    { unfold items. by rewrite Hl, fmap_app, fmap_cons. }
    rewrite Hits, find_key_split, drop_key_split by done.
    run_M. rewrite Hn. simpl.
    rewrite Hl, node_lookup_app, node_remove_app by done. simpl.
    rewrite decide_True by done. simpl.
    intros [= <- <- <-]. unfold items. simpl. by rewrite fmap_app.
  - rewrite (Get_absent c k HE). intros [= <- <- <-].
    unfold Get_items. rewrite find_key_absent; [done|].
    fold (keys c). rewrite <- (Inv_lookup_keys c k HI).
    by apply bool_decide_eq_false in HE.
Qed.

(** ** The invariant holds in every reachable state *)

Lemma step_Inv c c' : Inv c → step c c' → Inv c'.
Proof.
  intros HI Hs.
  inversion Hs as [c0 k v r c1 t HP|c0 k r c1 t HG|c0 k b _|c0 n _]; subst;
    [| |done..].
  - by apply Put_refines in HP as (_ & ? & _).
  - by apply Get_refines in HG as (_ & _ & ? & _).
Qed.

Lemma rtc_step_Inv c c' : rtc step c c' → Inv c → Inv c'.
Proof. induction 1; eauto using step_Inv. Qed.

Lemma reachable_Inv c : reachable c → Inv c.
Proof.
  intros (max_size & callback & Hr).
  eapply rtc_step_Inv; [done|apply Inv_new].
Qed.

Lemma step_returning_step c c' : step_returning c c' → step c c'.
Proof.
  destruct 1;
    [eapply step_Put|eapply step_Get|eapply step_Exists|eapply step_Size];
    eauto.
Qed.



Lemma drop_key_length k its : length (drop_key k its) ≤ length its.
Proof. apply length_filter. Qed.

Lemma removelast_length {A} (l : list A) : length (removelast l) = pred (length l).
Proof.
  destruct l as [|x l] using rev_ind; [done|].
  rewrite removelast_last, length_app. simpl. lia.
Qed.

(** The capacity bound survives every call that returns. *)
Lemma step_returning_bound c c' :
  Inv c → Size c ≤ max_size_ c → step_returning c c' →
  Size c' ≤ max_size_ c' ∧ max_size_ c' = max_size_ c.
Proof.
  intros HI Hb Hs.
  inversion Hs as [c0 k v c1 t HP|c0 k r c1 t HG|c0 k b _|c0 n _]; subst;
    [| |done..].
  - apply Put_refines in HP as (HP & HI' & Hm & _); [|done].
    rewrite Hm. split; [|done]. rewrite (Inv_Size_items _ HI').
    rewrite (Inv_Size_items _ HI) in Hb.
    pose proof (drop_key_length k (items c)) as Hd.
    unfold Put_items, Evict_items in HP. simpl in HP.
    case_decide as Hlt.
    + destruct (last _) as [e|]; [|by inversion HP].
      assert (items c' = removelast ((k, v) :: drop_key k (items c))) as ->.
      { destruct (callback_ c) as [cb|]; [|by inversion HP].
        destruct (CleanUp cb e); by inversion HP. }
      rewrite removelast_length. simpl. lia.
    + injection HP as Hits _. rewrite Hits. simpl in *. lia.
  - apply Get_refines in HG as (_ & _ & _ & Hm & _ & Hmap); [|done].
    unfold Size in *. rewrite Hmap, Hm. done.
Qed.

Lemma rtc_step_returning_bound c c' :
  rtc step_returning c c' → Inv c → Size c ≤ max_size_ c →
  Inv c' ∧ Size c' ≤ max_size_ c' ∧ max_size_ c' = max_size_ c.
Proof.
  induction 1 as [c|c c1 c2 Hs _ IH]; [done|]. intros HI Hb.
  destruct (step_returning_bound c c1 HI Hb Hs) as [Hb1 Hm1].
  destruct IH as (HI2 & Hb2 & Hm2); [|done|].
  { eapply step_Inv; [done|]. by apply step_returning_step. }
  split_and!; [done..|congruence].
Qed.

(** No call changes the capacity or the callback. *)
Lemma rtc_step_configuration c c' :
  rtc step c c' → Inv c →
  max_size_ c' = max_size_ c ∧ callback_ c' = callback_ c.
Proof.
  induction 1 as [c|c c1 c2 Hs _ IH]; [done|]. intros HI.
  destruct IH as [Hm Hc]; [by eapply step_Inv|]. rewrite Hm, Hc.
  inversion Hs as [c0 k v r c3 t HP|c0 k r c3 t HG|c0 k b _|c0 n _]; subst;
    [| |done..].
  - by apply Put_refines in HP as (_ & _ & ? & ?).
  - by apply Get_refines in HG as (_ & _ & _ & ? & ? & _).
Qed.

(** ** Running the member functions through the sequence functions *)

Lemma Put_run c k v :
  Inv c →
  ∃ c', Put k v c =
          ((Put_items (max_size_ c) (callback_ c) k v (items c)).1.1, c',
           (Put_items (max_size_ c) (callback_ c) k v (items c)).2)
    ∧ items c' = (Put_items (max_size_ c) (callback_ c) k v (items c)).1.2
    ∧ Inv c' ∧ max_size_ c' = max_size_ c ∧ callback_ c' = callback_ c.
Proof.
  intros HI. destruct (Put k v c) as [[r c'] t] eqn:HP. exists c'.
  apply Put_refines in HP as (HP & ? & ? & ?); [|done].
  rewrite <- HP. done.
Qed.

Lemma Get_run c k :
  Inv c →
  ∃ c', Get k c = ((Get_items k (items c)).1, c', [])
    ∧ items c' = (Get_items k (items c)).2
    ∧ Inv c' ∧ max_size_ c' = max_size_ c ∧ callback_ c' = callback_ c
    ∧ Size c' = Size c.
Proof.
  intros HI. destruct (Get k c) as [[r c'] t] eqn:HG. exists c'.
  apply Get_refines in HG as (-> & HG & ? & ? & ? & Hmap); [|done].
  rewrite <- HG. unfold Size. rewrite Hmap. done.
Qed.

(** ** [Put] with reference arguments *)

Lemma node_lookup_absent l n : n ∉ l.*1 → node_lookup n l = None.
Proof.
  induction l as [|[m e] l IH]; simpl; intros Hn; [done|].
  apply not_elem_of_cons in Hn as [Hne Hn].
  rewrite decide_False by done. by apply IH.
Qed.

Lemma node_lookup_other l1 l2 n m (e : KeyValuePair) :
  m ≠ n → node_lookup m (l1 ++ (n, e) :: l2) = node_lookup m (l1 ++ l2).
Proof.
  intros Hne. induction l1 as [|[n' e'] l1 IH]; simpl.
  - by rewrite decide_False.
  - by rewrite IH.
Qed.

Lemma node_lookup_elem l n (e : KeyValuePair) :
  node_lookup n l = Some e → (n, e) ∈ l.
Proof.
  induction l as [|[m e'] l IH]; simpl; [done|].
  case_decide as Hm; [intros [= <-]; subst; left|intros ?; right; auto].
Qed.

Lemma read_key_deref c (key : ref K) :
  read_key key c =
    match deref_key c key with
    | Some k => (Returned k, c, [])
    | None => (Undefined, c, [])
    end.
Proof.
  destruct key as [k|it]; [done|]. simpl. run_M.
  by destruct (node_lookup it (cache_items_list_ c)).
Qed.

Lemma read_value_deref c (value : ref V) :
  read_value value c =
    match deref_value c value with
    | Some v => (Returned v, c, [])
    | None => (Undefined, c, [])
    end.
Proof.
  destruct value as [v|it]; [done|]. simpl. run_M.
  by destruct (node_lookup it (cache_items_list_ c)).
Qed.

(** The first half of [Put]: the entry of the key, if there is one,
    leaves both structures; the other nodes stay. *)
Lemma Put_erase_phase c k :
  Inv c →
  ∃ c1,
    (if bool_decide (Size c ≠ 0) && Exists c k then
       it ← map_find k; list_erase it;; map_erase k
     else mret tt) c = (Returned tt, c1, [])
    ∧ (∀ it, cache_items_map_ c !! k ≠ Some it →
         node_lookup it (cache_items_list_ c1)
         = node_lookup it (cache_items_list_ c))
    ∧ (∀ it, cache_items_map_ c !! k = Some it →
         node_lookup it (cache_items_list_ c1) = None).
Proof.
  intros HI. rewrite guard_Exists. destruct (Exists c k) eqn:HE.
  - apply bool_decide_eq_true in HE as [n Hn].
    destruct (proj1 (Inv_map c HI k n) Hn) as [v0 Hin].
    apply list_elem_of_split in Hin as (l1 & l2 & Hl).
    destruct (Inv_split c l1 l2 n k v0 HI Hl) as (Hn1 & Hn2 & _).
    eexists. split_and!.
    + run_M. rewrite Hn. simpl. rewrite Hl, node_remove_app by done.
      simpl. reflexivity.
    + intros it Hit. simpl. rewrite Hl. symmetry.
      apply node_lookup_other. congruence.
    + intros it Hit. simpl. assert (it = n) as -> by congruence.
      apply node_lookup_absent. rewrite fmap_app, elem_of_app. tauto.
  - exists c. split_and!; [done..|].
    intros it Hit. apply bool_decide_eq_false in HE. destruct HE. eauto.
Qed.

(** The same with the key read through its reference. *)
Lemma Put_erase_read c c1 (key : ref K) k :
  read_key key c1 = (Returned k, c1, []) →
  (if bool_decide (Size c ≠ 0) then
     k ← read_key key;
     if Exists c k then it ← map_find k; list_erase it;; map_erase k
     else mret tt
   else mret tt) c1
  = (if bool_decide (Size c ≠ 0) && Exists c k then
       it ← map_find k; list_erase it;; map_erase k
     else mret tt) c1.
Proof.
  intros Hk. destruct (bool_decide (Size c ≠ 0)); [|done].
  by rewrite (bind_Returned (read_key key) _ c1 k c1 Hk).
Qed.

(** A key reference into the list is a reference into the entry of
    that very key. *)
Lemma deref_key_in_node c it k :
  Inv c → deref_key c (in_node it) = Some k →
  cache_items_map_ c !! k = Some it.
Proof.
  intros HI. simpl. destruct (node_lookup it _) as [[k' v']|] eqn:Hlk; [|done].
  intros [= <-]. apply node_lookup_elem in Hlk. apply (Inv_map c HI). eauto.
Qed.

(** With safe arguments [Put] does what it does on their values. *)
Lemma Put_ref_safe c (key : ref K) (value : ref V) k v :
  Inv c → safe_arguments c key value k v →
  Put_ref key value c = Put k v c.
Proof.
  intros HI (Hk & Hv & Hsafe).
  assert (key = elsewhere k) as ->.
  { destruct key as [k'|it]; [by injection Hk as ->|].
    pose proof (deref_key_in_node c it k HI Hk) as Hit.
    by destruct (Hsafe it Hit) as [[] _]. }
  unfold Put, Put_ref. rewrite !(bind_Returned this _ c c c eq_refl).
  apply bind_ext_at. intros u c1 t Hblock.
  rewrite (Put_erase_read c c (elsewhere k) k) in Hblock by done.
  destruct (Put_erase_phase c k HI) as (c1' & Hphase & Hother & _).
  rewrite Hphase in Hblock. injection Hblock as _ <- _.
  assert (read_value value c1' = (Returned v, c1', [])) as Hread.
  { rewrite read_value_deref. destruct value as [v'|it]; [by injection Hv as ->|].
    simpl in *. rewrite Hother; [by rewrite Hv|].
    intros Hit. by destruct (Hsafe it Hit) as [_ []]. }
  rewrite (Put_insert_read (elsewhere k) value k v c1') by done.
  by rewrite (Put_insert_read (elsewhere k) (elsewhere v) k v c1').
Qed.

Lemma bind_Undefined {A B} (m : M A) (f : A → M B) c c1 t :
  m c = (Undefined, c1, t) → (m ≫= f) c = (Undefined, c1, t).
Proof. intros Hm. unfold mbind, M_mbind, M_bind. by rewrite Hm. Qed.

(** With any other arguments [Put] reads through a dangling reference. *)
Lemma Put_ref_unsafe c (key : ref K) (value : ref V) :
  Inv c → (¬ ∃ k v, safe_arguments c key value k v) →
  (Put_ref key value c).1.1 = Undefined.
Proof.
  intros HI Hunsafe. unfold Put_ref.
  rewrite (bind_Returned this _ c c c eq_refl).
  pose proof (read_key_deref c key) as Hrk.
  destruct (deref_key c key) as [k|] eqn:Hk.
  2:{ destruct (bool_decide (Size c ≠ 0)).
      - erewrite bind_Undefined; [done|]. by apply bind_Undefined.
      - rewrite (bind_Returned (mret tt) _ c tt c eq_refl).
        by erewrite bind_Undefined. }
  rewrite (bind_cong _ _ _ _ (Put_erase_read c c key k Hrk)).
  destruct (Put_erase_phase c k HI) as (c1 & Hphase & Hother & Herased).
  rewrite (bind_Returned _ _ c tt c1 Hphase).
  destruct key as [k'|it].
  - injection Hk as ->.
    rewrite (bind_Returned (read_key (elsewhere k)) _ c1 k c1 eq_refl).
    assert (deref_value c1 value = None) as Hv1.
    { destruct value as [v|it].
      - destruct Hunsafe. exists k, v. split_and!; [done..|].
        intros it _. split; by intros [].
      - simpl. destruct (decide (cache_items_map_ c !! k = Some it)) as [Hit|Hit].
        + by rewrite (Herased it Hit).
        + rewrite (Hother it Hit).
          destruct (node_lookup it (cache_items_list_ c)) as [[k' v]|] eqn:Hlk;
            [|done].
          destruct Hunsafe. exists k, v. split_and!; [done|by simpl; rewrite Hlk|].
          intros it' Hit'. split; [by intros []|].
          simpl. intros ->. done. }
    erewrite bind_Undefined; [done|].
    rewrite read_value_deref, Hv1. done.
  - pose proof (deref_key_in_node c it k HI Hk) as Hit.
    erewrite bind_Undefined; [done|].
    rewrite read_key_deref. simpl. by rewrite (Herased it Hit).
Qed.

(** [Get] on a present key hands out a reference into the node that
    the Key Index has for the key. *)
Lemma Get_ref_run c k :
  Inv c → Exists c k = true →
  ∃ c' it, Get_ref k c = (Returned (in_node it), c', [])
    ∧ Inv c' ∧ cache_items_map_ c' !! k = Some it.
Proof.
  intros HI HE. unfold Get_ref.
  rewrite (bind_Returned this _ c c c eq_refl), guard_Exists, HE.
  apply bool_decide_eq_true in HE as [n Hn].
  destruct (proj1 (Inv_map c HI k n) Hn) as [v0 Hin].
  apply list_elem_of_split in Hin as (l1 & l2 & Hl).
  destruct (Inv_split c l1 l2 n k v0 HI Hl) as (Hn1 & Hn2 & Hk1 & Hk2).
  assert (Inv (with_list ((n, (k, v0)) :: l1 ++ l2) c)) as HI1.
  { apply Inv_permute; [done|]. rewrite Hl. apply Permutation_middle. }
  exists (with_list ((n, (k, v0)) :: l1 ++ l2) c), n.
  split_and!; [|done|done].
  run_M. rewrite Hn. simpl.
  rewrite Hl, node_lookup_app, node_remove_app by done. done.
Qed.

Lemma Evict_items_snoc cb its (e : KeyValuePair) :
  Evict_items cb (its ++ [e]) =
    match cb with
    | None => (Returned tt, its, [])
    | Some cb' =>
        match CleanUp cb' e with
        | None => (Returned tt, its, [e])
        | Some ex => (Thrown ex, its ++ [e], [e])
        end
    end.
Proof. unfold Evict_items. by rewrite last_snoc, removelast_last. Qed.

Lemma Put_items_room max_size cb k v its :
  k ∉ its.*1 → length its < max_size →
  Put_items max_size cb k v its = (Returned tt, (k, v) :: its, []).
Proof.
  intros Hk Hlt. unfold Put_items. rewrite drop_key_absent by done.
  simpl. rewrite decide_False by lia. done.
Qed.

Lemma Put_items_full max_size cb k v its :
  k ∉ its.*1 → max_size ≤ length its →
  Put_items max_size cb k v its = Evict_items cb ((k, v) :: its).
Proof.
  intros Hk Hlt. unfold Put_items. rewrite drop_key_absent by done.
  simpl. rewrite decide_True by lia. done.
Qed.

Lemma keys_split k its :
  NoDup its.*1 → k ∈ its.*1 →
  ∃ i1 v0 i2, its = i1 ++ (k, v0) :: i2 ∧ (k ∉ i1.*1) ∧ (k ∉ i2.*1).
Proof.
  intros Hnd Hin. apply list_elem_of_fmap in Hin as ([k' v0] & Hk & Hin).
  simpl in Hk. subst k'.
  apply list_elem_of_split in Hin as (i1 & i2 & ->). exists i1, v0, i2.
  rewrite fmap_app, fmap_cons in Hnd. simpl in Hnd.
  apply NoDup_app in Hnd as (_ & H1 & H2). apply NoDup_cons in H2 as [H2 _].
  split_and!; [done| |done]. intros Hx. apply (H1 _ Hx). left.
Qed.

Lemma bind_Returned_trace {A B} (m : M A) (f : A → M B) c a c1 t1 r c2 t2 :
  m c = (Returned a, c1, t1) → f a c1 = (r, c2, t2) →
  (m ≫= f) c = (r, c2, t1 ++ t2).
Proof.
  intros Hm Hf. unfold mbind, M_mbind, M_bind. by rewrite Hm, Hf.
Qed.

(** What the eviction of the back entry [e] amounts to. *)
Lemma Evict_items_back cb its (e : KeyValuePair) :
  (Evict_items cb (its ++ [e])).2 = cleanups cb [e]
  ∧ (returns_on cb e →
     Evict_items cb (its ++ [e]) = (Returned tt, its, cleanups cb [e])).
Proof.
  rewrite Evict_items_snoc. destruct cb as [cb'|]; simpl; [|done].
  destruct (CleanUp cb' e) eqn:He; simpl; split; congruence.
Qed.

(** A run of [Put]s of new keys that fit: nothing is evicted, and the
    Recency Sequence lists them latest first. *)
Lemma Put_all_room kvs c :
  Inv c → NoDup (kvs.*1 ++ keys c) →
  length kvs + length (items c) ≤ max_size_ c →
  ∃ c', Put_all kvs c = (Returned tt, c', [])
    ∧ Inv c' ∧ items c' = reverse kvs ++ items c
    ∧ max_size_ c' = max_size_ c ∧ callback_ c' = callback_ c.
Proof.
  revert c. induction kvs as [|[k v] kvs IH]; intros c HI Hnd Hlen.
  { exists c. done. }
  simpl in Hnd, Hlen. apply NoDup_cons in Hnd as [Hk Hnd].
  apply not_elem_of_app in Hk as [Hk1 Hk2].
  destruct (Put_run c k v HI) as (c1 & HP & Hits & HI1 & Hm1 & Hc1).
  rewrite Put_items_room in HP, Hits by (done || lia). simpl in HP, Hits.
  destruct (IH c1) as (c' & HPa & HI' & Hits' & Hm' & Hc'); [done| | |].
  { unfold keys. rewrite Hits, fmap_cons. fold (keys c).
    rewrite <- Permutation_middle. apply NoDup_cons. split; [|done].
    by apply not_elem_of_app. }
  { rewrite Hits, Hm1. simpl. lia. }
  exists c'. split_and!; [|done| |congruence..].
  - simpl. by rewrite (bind_Returned_trace _ _ _ _ _ _ _ _ _ HP HPa).
  - rewrite Hits', Hits, reverse_cons, <- app_assoc. done.
Qed.

Lemma reachable_new max_size callback :
  reachable (LRUCache_new max_size callback).
Proof. exists max_size, callback. apply rtc_refl. Qed.

Lemma reachable_step c c' : reachable c → step c c' → reachable c'.
Proof.
  intros (max_size & callback & Hr) Hs. exists max_size, callback.
  by eapply rtc_r.
Qed.

Lemma reachable_Put c k v : reachable c → reachable (Put k v c).1.2.
Proof.
  intros Hr. eapply reachable_step; [done|].
  destruct (Put k v c) as [[r c'] t] eqn:HP. by eapply step_Put.
Qed.

Lemma reachable_Put_all kvs c : reachable c → reachable (Put_all kvs c).1.2.
Proof.
  revert c. induction kvs as [|[k v] kvs IH]; intros c Hr; [done|].
  simpl. unfold mbind, M_mbind, M_bind.
  pose proof (reachable_Put c k v Hr) as Hr1.
  destruct (Put k v c) as [[[[]|e|] c1] t1]; simpl in *; [|done..].
  specialize (IH c1 Hr1). by destruct (Put_all kvs c1) as [[r c2] t2].
Qed.

(** A [Put] with reference arguments that are safe is a [Put] of the
    values they designate, so it stays within the reachable states. *)
Lemma reachable_Put_ref c (key : ref K) (value : ref V) k v :
  reachable c → safe_arguments c key value k v →
  reachable (Put_ref key value c).1.2.
Proof.
  intros Hr Hsafe.
  rewrite (Put_ref_safe c key value k v (reachable_Inv c Hr) Hsafe).
  by apply reachable_Put.
Qed.

(** A run of [Put]s that returns is a run of returning calls. *)
Lemma Put_all_returning kvs c c' t :
  Put_all kvs c = (Returned tt, c', t) → rtc step_returning c c'.
Proof.
  revert c t. induction kvs as [|[k v] kvs IH]; intros c t; simpl.
  { intros [= <- <-]. apply rtc_refl. }
  unfold mbind, M_mbind, M_bind.
  destruct (Put k v c) as [[[[]|e|] c1] t1] eqn:HP; [|done..].
  destruct (Put_all kvs c1) as [[r c2] t2] eqn:HPa. intros [= -> <- <-].
  eapply rtc_l; [by eapply step_returning_Put|by eapply IH].
Qed.

(** ** The claims *)

(** C1 (as amended). When a [Put] of a new key on a reachable cache at
    capacity calls [CleanUp] and the call throws, the exception leaves
    [Put] after exactly that one call, and the removal has not happened
    on either structure: the new entry is in front of all the old ones,
    the state is still a reachable (hence consistent) one, and the entry
    [CleanUp] was called with is still found by [Exists] and [Get] and
    counted by [Size], which now exceeds the capacity by one. *)
Theorem C1_failing_callback_keeps_entry c k v (f : CleanupCallback) e ex :
  reachable c → Size c = max_size_ c → Exists c k = false →
  callback_ c = Some f → last ((k, v) :: items c) = Some e →
  CleanUp f e = Some ex →
  ∃ c', Put k v c = (Thrown ex, c', [e])
    ∧ items c' = (k, v) :: items c
    ∧ reachable c'
    ∧ Exists c' e.1 = true
    ∧ (Get e.1 c').1.1 = Returned e.2
    ∧ Size c' = S (max_size_ c).
Proof.
  intros Hr Hsz HE Hcb Hlast Hex. pose proof (reachable_Inv c Hr) as HI.
  rewrite (Inv_Exists c k HI) in HE. apply bool_decide_eq_false in HE.
  rewrite (Inv_Size_items c HI) in Hsz.
  pose proof (reachable_Put c k v Hr) as Hr'.
  destruct (Put_run c k v HI) as (c' & HP & Hits & HI' & _ & _).
  rewrite HP in Hr'. simpl in Hr'.
  rewrite Put_items_full in HP, Hits by (done || lia).
  apply last_Some in Hlast as [its Hsnoc].
  rewrite Hcb, Hsnoc, Evict_items_snoc, Hex in HP, Hits. simpl in HP, Hits.
  exists c'. rewrite <- Hsnoc in Hits. split_and!; [done..| | |].
  - rewrite (Inv_Exists c' _ HI'). apply bool_decide_eq_true.
    unfold keys. rewrite Hits, Hsnoc, fmap_app, elem_of_app. right. left.
  - destruct (Get_run c' e.1 HI') as (c'' & HG & _). rewrite HG. simpl.
    pose proof (Inv_keys c' HI') as Hnd. unfold keys in Hnd.
    rewrite Hits, Hsnoc, fmap_app in Hnd.
    apply NoDup_app in Hnd as (_ & Hnd & _).
    unfold Get_items. rewrite Hits, Hsnoc. destruct e as [ke ve].
    rewrite find_key_split; [done|]. intros Hin. apply (Hnd _ Hin). left.
  - rewrite (Inv_Size_items c' HI'), Hits. simpl. lia.
Qed.

(** C3. In every state reachable from a freshly constructed cache by
    [Put], [Get], [Exists] and [Size] calls (whatever their outcome),
    [Size()] is the cardinality of the Key Index and the length of the
    Recency Sequence, and both hold the same set of keys. *)
Theorem C3_index_and_sequence_agree c :
  reachable c →
  Size c = size (cache_items_map_ c)
  ∧ Size c = length (cache_items_list_ c)
  ∧ dom (cache_items_map_ c) = list_to_set (keys c).
Proof.
  intros Hr. apply reachable_Inv in Hr.
  split_and!; [done|by apply Inv_Size|by apply Inv_dom].
Qed.



(** C7. [Get] on a key that is absent (the Key Index does not hold it;
    in a reachable state, equivalently, the Recency Sequence does not)
    throws [range_error], calls no [CleanUp] and leaves the object as it
    was. *)
Theorem C7_Get_absent_key c k :
  Exists c k = false ∨ (reachable c ∧ k ∉ keys c) →
  Get k c = (Thrown (range_error "There is no such key in cache"), c, []).
Proof.
  intros [HE|[Hr Hk]]; apply Get_absent; [done|].
  apply reachable_Inv in Hr. rewrite (Inv_Exists c k Hr).
  by apply bool_decide_eq_false.
Qed.

(** C2 (as amended). For a capacity [max_size ≥ 1] and [max_size + 1]
    [Put]s of pairwise distinct keys on a new cache: the first [max_size] return
    without a call of [CleanUp]; the last one calls [CleanUp], if a
    callback is set, exactly once and with the first pair put, and when
    that call returns (or no callback is set) exactly the first key is
    gone: all later keys are present and the cache is full. *)
Theorem C2_eldest_is_evicted max_size callback kvs k v :
  1 ≤ max_size → length kvs = max_size → NoDup (kvs ++ [(k, v)]).*1 →
  ∃ c k1 v1 kvs' r c',
    kvs = (k1, v1) :: kvs'
    ∧ Put_all kvs (LRUCache_new max_size callback) = (Returned tt, c, [])
    ∧ Put k v c = (r, c', cleanups callback [(k1, v1)])
    ∧ (returns_on callback (k1, v1) →
         r = Returned tt
         ∧ items c' = (k, v) :: reverse kvs'
         ∧ Exists c' k1 = false
         ∧ (∀ k', k' ∈ (kvs' ++ [(k, v)]).*1 → Exists c' k' = true)
         ∧ Size c' = max_size).
Proof.
  intros Hpos Hlen Hnd. destruct kvs as [|[k1 v1] kvs']; [simpl in *; lia|].
  rewrite fmap_app in Hnd. simpl in Hnd.
  destruct (Put_all_room ((k1, v1) :: kvs') (LRUCache_new max_size callback))
    as (c & HPa & HI & Hits & Hm & Hc).
  { apply Inv_new. }
  { unfold keys, items. simpl. rewrite app_nil_r.
    apply NoDup_cons in Hnd as [Hk1 Hnd]. apply NoDup_app in Hnd as (? & _ & _).
    apply NoDup_cons. split; [|done]. intros Hin. apply Hk1.
    apply elem_of_app. by left. }
  { simpl in *. lia. }
  simpl in Hm, Hc. rewrite app_nil_r, reverse_cons in Hits.
  assert (k ∉ (items c).*1) as Hk.
  { rewrite Hits, fmap_app, fmap_reverse, elem_of_app, elem_of_reverse.
    simpl. intros [Hin|Hin].
    - apply NoDup_cons in Hnd as [_ Hnd].
      apply NoDup_app in Hnd as (_ & Hd & _). apply (Hd k Hin). left.
    - apply list_elem_of_singleton in Hin as ->.
      apply NoDup_cons in Hnd as [Hk1 _]. apply Hk1, elem_of_app. right. left. }
  destruct (Put_run c k v HI) as (c' & HP & Hits' & HI' & Hm' & Hc').
  rewrite Put_items_full in HP, Hits'
    by (done || (rewrite Hits, length_app, length_reverse, Hm; simpl in *; lia)).
  rewrite Hits, Hc in HP, Hits'.
  change ((k, v) :: reverse kvs' ++ [(k1, v1)])
    with (((k, v) :: reverse kvs') ++ [(k1, v1)]) in HP, Hits'.
  destruct (Evict_items_back callback ((k, v) :: reverse kvs') (k1, v1))
    as [Ht Hret].
  rewrite Ht in HP.
  exists c, k1, v1, kvs', (Evict_items callback
    (((k, v) :: reverse kvs') ++ [(k1, v1)])).1.1, c'.
  split_and!; [done..|]. intros Hcb. specialize (Hret Hcb).
  rewrite Hret in Hits' |- *. simpl in Hits'. split_and!; [done..| | |].
  - rewrite (Inv_Exists c' k1 HI'). apply bool_decide_eq_false.
    unfold keys. rewrite Hits', fmap_cons, fmap_reverse.
    rewrite elem_of_cons, elem_of_reverse.
    apply NoDup_cons in Hnd as [Hk1 _]. intros Hin. apply Hk1.
    rewrite elem_of_app. destruct Hin as [->|Hin]; [right; left|by left].
  - intros k' Hk'. rewrite (Inv_Exists c' k' HI'). apply bool_decide_eq_true.
    unfold keys. rewrite Hits', fmap_cons, fmap_reverse.
    rewrite elem_of_cons, elem_of_reverse.
    rewrite fmap_app in Hk'. simpl in Hk'.
    apply elem_of_app in Hk' as [Hk'|Hk']; [by right|].
    apply list_elem_of_singleton in Hk' as ->. by left.
  - rewrite (Inv_Size_items c' HI'), Hits'. simpl. rewrite length_reverse.
    simpl in Hlen. lia.
Qed.

(** C5 (as amended). Capacity 2, [Put(A)], [Put(B)], a successful
    [Get(A)], then [Put(C)] for distinct keys: the eviction candidate of the last call
    is [B] ([CleanUp], if set, is called once, with [B]'s pair), and
    when that call returns [B] is gone while [A] and [C] are present. *)
Theorem C5_Get_refreshes_recency callback A va B vb C vc :
  A ≠ B → C ≠ A → C ≠ B →
  ∃ c1 c2 r c3,
    Put_all [(A, va); (B, vb)] (LRUCache_new 2 callback) = (Returned tt, c1, [])
    ∧ Get A c1 = (Returned va, c2, [])
    ∧ Put C vc c2 = (r, c3, cleanups callback [(B, vb)])
    ∧ (returns_on callback (B, vb) →
         r = Returned tt
         ∧ items c3 = [(C, vc); (A, va)]
         ∧ Exists c3 B = false ∧ Exists c3 A = true ∧ Exists c3 C = true).
Proof.
  intros HAB HCA HCB.
  destruct (Put_all_room [(A, va); (B, vb)] (LRUCache_new 2 callback))
    as (c1 & HPa & HI1 & Hits1 & Hm1 & Hc1).
  { apply Inv_new. }
  { unfold keys, items. simpl. apply NoDup_cons. split.
    - by intros ->%list_elem_of_singleton.
    - apply NoDup_singleton. }
  { simpl. lia. }
  simpl in Hm1, Hc1. rewrite app_nil_r in Hits1.
  change (reverse [(A, va); (B, vb)]) with ([(B, vb)] ++ (A, va) :: [])
    in Hits1.
  assert (A ∉ [(B, vb)].*1) as HA1.
  { simpl. by intros ->%list_elem_of_singleton. }
  assert (A ∉ (@nil (K * V)).*1) as HA2 by (simpl; apply not_elem_of_nil).
  destruct (Get_run c1 A HI1) as (c2 & HG & Hits2 & HI2 & Hm2 & Hc2 & _).
  unfold Get_items in HG, Hits2.
  rewrite Hits1, find_key_split, drop_key_split in HG, Hits2 by done.
  simpl in HG, Hits2.
  destruct (Put_run c2 C vc HI2) as (c3 & HP & Hits3 & HI3 & _ & _).
  assert (C ∉ (items c2).*1) as HC.
  { rewrite Hits2. simpl. rewrite !not_elem_of_cons. split_and!; try done.
    apply not_elem_of_nil. }
  rewrite Put_items_full in HP, Hits3 by (done || (rewrite Hits2, Hm2, Hm1; done)).
  rewrite Hits2, Hc2, Hc1 in HP, Hits3.
  destruct (Evict_items_back callback [(C, vc); (A, va)] (B, vb)) as [Ht Hret].
  simpl in Ht, Hret. rewrite Ht in HP.
  exists c1, c2, (Evict_items callback [(C, vc); (A, va); (B, vb)]).1.1, c3.
  split_and!; [done..|]. intros Hcb. specialize (Hret Hcb).
  rewrite Hret in Hits3 |- *. simpl in Hits3.
  rewrite !(Inv_Exists c3 _ HI3). unfold keys. rewrite Hits3. simpl.
  split_and!; [done..| | |].
  - apply bool_decide_eq_false. rewrite !not_elem_of_cons.
    split_and!; [congruence..|apply not_elem_of_nil].
  - apply bool_decide_eq_true. right. left.
  - apply bool_decide_eq_true. left.
Qed.

(** C10 (as amended). A cache of capacity 0 can be constructed, and in
    every run from it in which each [Put] returned the cache is empty.
    [Put(k, v)] on it is the insertion of the pair followed by [Evict]:
    the insertion gives a cache that holds exactly (k, v), with
    [Size()] 1, and [Put] is [Evict] run on that cache.  [CleanUp], if
    set, is called once, with (k, v).  When that call returns (or no
    callback is set) [Put] returns and the cache is empty again, with
    [Size()] 0; when it throws, the exception leaves [Put] and the cache
    keeps the inserted pair. *)
Theorem C10_capacity_zero_insert_then_evict callback c k v :
  rtc step_returning (LRUCache_new 0 callback) c →
  items c = [] ∧ Size c = 0
  ∧ ∃ c1,
      (it ← list_push_front (k, v); map_assign k it) c = (Returned tt, c1, [])
      ∧ items c1 = [(k, v)] ∧ Exists c1 k = true ∧ Size c1 = 1
      ∧ Put k v c = Evict c1
      ∧ (Put k v c).2 = cleanups callback [(k, v)]
      ∧ (returns_on callback (k, v) →
           ∃ c', Put k v c = (Returned tt, c', cleanups callback [(k, v)])
             ∧ items c' = [] ∧ Size c' = 0 ∧ Exists c' k = false
             ∧ rtc step_returning (LRUCache_new 0 callback) c')
      ∧ (∀ f ex, callback = Some f → CleanUp f (k, v) = Some ex →
           Put k v c = (Thrown ex, c1, [(k, v)])).
Proof.
  intros Hr.
  destruct (rtc_step_returning_bound _ _ Hr (Inv_new 0 callback))
    as (HI & Hb & Hm).
  { unfold Size. simpl. rewrite map_size_empty. lia. }
  simpl in Hm. rewrite Hm in Hb.
  assert (Size c = 0) as Hsz by lia.
  assert (items c = []) as Hits.
  { apply nil_length_inv. by rewrite <- (Inv_Size_items c HI). }
  assert (callback_ c = callback) as Hc.
  { assert (rtc step (LRUCache_new 0 callback) c) as Hr'
      by (eapply rtc_subrel; [apply @step_returning_step|done]).
    by destruct (rtc_step_configuration _ _ Hr' (Inv_new 0 callback)). }
  split; [done|]. split; [done|].
  assert (cache_items_list_ c = []) as Hl by (by apply fmap_nil_inv in Hits).
  assert (cache_items_map_ c = ∅) as Hmap by (by apply map_size_empty_inv).
  destruct c as [l m ms cb nn]. simpl in Hm, Hc, Hl, Hmap. subst l m ms cb.
  eexists. split; [reflexivity|].
  split; [reflexivity|].
  set (c := {| cache_items_list_ := []; cache_items_map_ := ∅; max_size_ := 0;
               callback_ := callback; next_node_ := nn |}) in *.
  set (c1 := with_map _ _).
  assert (Size c1 = 1) as Hsz1.
  { unfold Size, c1, with_map. simpl. by rewrite insert_empty, map_size_singleton. }
  assert (Exists c1 k = true) as HE1.
  { apply bool_decide_eq_true. unfold c1, with_map. simpl. by simplify_map_eq. }
  assert (Put k v c = Evict c1) as HP.
  { rewrite Put_unfold.
    rewrite (bind_Returned this _ c c c eq_refl).
    rewrite (bool_decide_eq_false_2 (Size c ≠ 0)) by (rewrite Hsz; lia).
    rewrite andb_false_l.
    rewrite (bind_Returned (mret ()) _ c () c eq_refl).
    rewrite (bind_Returned (list_push_front (k, v)) _ c _ _ eq_refl).
    rewrite (bind_Returned (map_assign k _) _ _ () _ eq_refl).
    fold c1.
    rewrite (bind_Returned this _ c1 c1 c1 eq_refl).
    rewrite bool_decide_eq_true_2; [done|]. rewrite Hsz1. simpl. lia. }
  split; [done|]. split; [done|]. split; [done|].
  assert (Evict c1 =
            match callback with
            | Some f =>
                match CleanUp f (k, v) with
                | Some ex => (Thrown ex, c1, [(k, v)])
                | None => (Returned tt,
                           with_list [] (with_map (delete k (cache_items_map_ c1)) c1),
                           [(k, v)])
                end
            | None => (Returned tt,
                       with_list [] (with_map (delete k (cache_items_map_ c1)) c1),
                       [])
            end) as HEv.
  { unfold Evict, c1, c.
    destruct callback as [f|]; [destruct (CleanUp f (k, v)) as [ex|] eqn:Hf|];
      run_M; rewrite ?decide_True by done; simpl; rewrite ?Hf; simpl;
      rewrite ?decide_True by done; simpl; done. }
  set (c2 := with_list [] (with_map (delete k (cache_items_map_ c1)) c1)) in HEv.
  assert (cache_items_map_ c2 = ∅) as Hmap2.
  { unfold c2, c1, with_list, with_map. simpl. apply map_eq. intros i.
    destruct (decide (i = k)); by simplify_map_eq. }
  split; [|split].
  - rewrite HP, HEv.
    by destruct callback as [f|]; [destruct (CleanUp f (k, v))|].
  - intros Hret. exists c2.
    assert (Put k v c = (Returned tt, c2, cleanups callback [(k, v)])) as HP2.
    { rewrite HP, HEv. destruct callback as [f|]; [|done].
      simpl in Hret. by rewrite Hret. }
    split_and!; [done|done| | |].
    + unfold Size. by rewrite Hmap2, map_size_empty.
    + apply bool_decide_eq_false. rewrite Hmap2, lookup_empty.
      by intros [? [=]].
    + eapply rtc_r; [exact Hr|]. by eapply step_returning_Put.
  - intros f ex -> Hf. by rewrite HP, HEv, Hf.
Qed.



End LRUCache.

(** ** The claims at concrete caches *)

Import Examples.

Lemma reachable_main_cache_after_puts : reachable main_cache_after_puts.
Proof. apply reachable_Put_all, reachable_new. Qed.

Lemma reachable_full_cache_failing_callback :
  reachable full_cache_failing_callback.
Proof. apply reachable_Put, reachable_new. Qed.

(** C1 as stated fails: capacity 1, a callback that throws, [Put(10)]
    then [Put(20)].  The second [Put] throws after calling [CleanUp] on
    the entry of key 10, and that entry is still there: [Exists(10)]
    holds, [Get(10)] returns its value and [Size()] is 2. *)
Lemma C1_counterexample_entry_survives :
  let c := full_cache_failing_callback in
  Size c = max_size_ c
  ∧ ∃ c', Put 20%Z "test string"%string c
            = (Thrown (callback_failure "CleanUp failed"), c',
               [(10%Z, "My String"%string)])
      ∧ Exists c' 10%Z = true
      ∧ (Get 10%Z c').1.1 = Returned "My String"%string
      ∧ Size c' = 2 ∧ max_size_ c' = 1.
Proof.
  split; [reflexivity|]. eexists. split; [vm_compute; reflexivity|].
  vm_compute. done.
Qed.

Lemma C1_witness :
  let c := full_cache_failing_callback in
  let e := (10%Z, "My String"%string) in
  (reachable c ∧ Size c = max_size_ c ∧ Exists c 20%Z = false
   ∧ callback_ c = Some failing_callback
   ∧ last ((20%Z, "test string"%string) :: items c) = Some e
   ∧ CleanUp failing_callback e = Some (callback_failure "CleanUp failed"))
  ∧ ∃ c', Put 20%Z "test string"%string c
            = (Thrown (callback_failure "CleanUp failed"), c', [e])
      ∧ items c' = (20%Z, "test string"%string) :: items c
      ∧ reachable c'
      ∧ Exists c' e.1 = true
      ∧ (Get e.1 c').1.1 = Returned e.2
      ∧ Size c' = S (max_size_ c).
Proof.
  intros c e.
  assert (reachable c) as Hr by apply reachable_full_cache_failing_callback.
  split; [split_and!; [exact Hr|reflexivity..]|].
  apply (C1_failing_callback_keeps_entry c 20%Z "test string"%string
           failing_callback e (callback_failure "CleanUp failed"));
    [exact Hr|reflexivity..].
Defined.

(** C2 as stated fails: capacity 1, a callback that throws, [Put(10)]
    then [Put(20)].  [CleanUp] is called once, with the pair of key 10,
    but key 10 is not evicted: the [Put] is left by the exception and
    both keys are present. *)
Lemma C2_counterexample_nothing_evicted :
  ∃ c1 c2,
    Put_all [(10%Z, "My String"%string)] (LRUCache_new 1 (Some failing_callback))
      = (Returned tt, c1, [])
    ∧ Put 20%Z "test string"%string c1
      = (Thrown (callback_failure "CleanUp failed"), c2,
         [(10%Z, "My String"%string)])
    ∧ Exists c2 10%Z = true ∧ Exists c2 20%Z = true ∧ Size c2 = 2.
Proof.
  eexists _, _. split; [vm_compute; reflexivity|].
  split; [vm_compute; reflexivity|]. vm_compute. done.
Qed.


(** C5 as stated fails: capacity 2, a callback that throws, [Put(1)],
    [Put(2)], [Get(1)], [Put(3)].  [CleanUp] is called with the pair of
    key 2, but key 2 is not evicted: all three keys are present. *)
Lemma C5_counterexample_nothing_evicted :
  ∃ c1 c2 c3,
    Put_all [(1%Z, "a"%string); (2%Z, "b"%string)]
      (LRUCache_new 2 (Some failing_callback)) = (Returned tt, c1, [])
    ∧ Get 1%Z c1 = (Returned "a"%string, c2, [])
    ∧ Put 3%Z "c"%string c2
      = (Thrown (callback_failure "CleanUp failed"), c3, [(2%Z, "b"%string)])
    ∧ Exists c3 2%Z = true ∧ Exists c3 1%Z = true ∧ Size c3 = 3.
Proof.
  eexists _, _, _. split; [vm_compute; reflexivity|].
  split; [vm_compute; reflexivity|].
  split; [vm_compute; reflexivity|]. vm_compute. done.
Qed.


Lemma C2_witness :
  (1 ≤ 1 ∧ length [(10%Z, "My String"%string)] = 1
   ∧ NoDup ([(10%Z, "My String"%string)] ++ [(20%Z, "test string"%string)]).*1)
  ∧ ∃ c k1 v1 kvs' r c',
      [(10%Z, "My String"%string)] = (k1, v1) :: kvs'
      ∧ Put_all [(10%Z, "My String"%string)]
          (LRUCache_new 1 (Some quiet_callback)) = (Returned tt, c, [])
      ∧ Put 20%Z "test string"%string c
          = (r, c', cleanups (Some quiet_callback) [(k1, v1)])
      ∧ (returns_on (Some quiet_callback) (k1, v1) →
           r = Returned tt
           ∧ items c' = (20%Z, "test string"%string) :: reverse kvs'
           ∧ Exists c' k1 = false
           ∧ (∀ k', k' ∈ (kvs' ++ [(20%Z, "test string"%string)]).*1 →
                Exists c' k' = true)
           ∧ Size c' = 1).
Proof.
  assert (NoDup ([(10%Z, "My String"%string)]
                   ++ [(20%Z, "test string"%string)]).*1) as Hnd.
  { simpl. apply NoDup_cons. split; [|apply NoDup_singleton].
    intros Hin%list_elem_of_singleton. discriminate Hin. }
  split; [split_and!; [lia|reflexivity|exact Hnd]|].
  apply (C2_eldest_is_evicted 1 (Some quiet_callback)
           [(10%Z, "My String"%string)] 20%Z "test string"%string);
    [lia|reflexivity|exact Hnd].
Defined.

Lemma C3_witness :
  let c := main_cache_after_puts in
  reachable c
  ∧ (Size c = size (cache_items_map_ c)
     ∧ Size c = length (cache_items_list_ c)
     ∧ dom (cache_items_map_ c) = list_to_set (keys c)).
Proof.
  intros c.
  assert (reachable c) as Hr by apply reachable_main_cache_after_puts.
  split; [exact Hr|]. exact (C3_index_and_sequence_agree c Hr).
Defined.


Lemma C5_witness :
  (1%Z ≠ 2%Z ∧ 3%Z ≠ 1%Z ∧ 3%Z ≠ 2%Z)
  ∧ ∃ c1 c2 r c3,
      Put_all [(1%Z, "a"%string); (2%Z, "b"%string)]
        (LRUCache_new 2 (Some quiet_callback)) = (Returned tt, c1, [])
      ∧ Get 1%Z c1 = (Returned "a"%string, c2, [])
      ∧ Put 3%Z "c"%string c2
          = (r, c3, cleanups (Some quiet_callback) [(2%Z, "b"%string)])
      ∧ (returns_on (Some quiet_callback) (2%Z, "b"%string) →
           r = Returned tt
           ∧ items c3 = [(3%Z, "c"%string); (1%Z, "a"%string)]
           ∧ Exists c3 2%Z = false ∧ Exists c3 1%Z = true
           ∧ Exists c3 3%Z = true).
Proof.
  split; [split_and!; lia|].
  apply (C5_Get_refreshes_recency (Some quiet_callback)
           1%Z "a"%string 2%Z "b"%string 3%Z "c"%string); lia.
Defined.


(** C10 as stated fails: capacity 0 and a callback that throws.
    [Put(10)] inserts the pair, [CleanUp] throws, and the cache is not
    empty after the [Put]: [Size()] is 1 and key 10 is present. *)
Lemma C10_counterexample_not_empty :
  ∃ c', Put 10%Z "My String"%string (LRUCache_new 0 (Some failing_callback))
          = (Thrown (callback_failure "CleanUp failed"), c',
             [(10%Z, "My String"%string)])
    ∧ Size c' = 1 ∧ Exists c' 10%Z = true
    ∧ items c' = [(10%Z, "My String"%string)].
Proof. eexists. split; [vm_compute; reflexivity|]. vm_compute. done. Qed.

Lemma C10_witness :
  let callback := Some quiet_callback in
  let c := LRUCache_new 0 callback in
  let k := 10%Z in
  let v := "My String"%string in
  rtc step_returning (LRUCache_new 0 callback) c
  ∧ (items c = [] ∧ Size c = 0
     ∧ ∃ c1,
         (it ← list_push_front (k, v); map_assign k it) c = (Returned tt, c1, [])
         ∧ items c1 = [(k, v)] ∧ Exists c1 k = true ∧ Size c1 = 1
         ∧ Put k v c = Evict c1
         ∧ (Put k v c).2 = cleanups callback [(k, v)]
         ∧ (returns_on callback (k, v) →
              ∃ c', Put k v c = (Returned tt, c', cleanups callback [(k, v)])
                ∧ items c' = [] ∧ Size c' = 0 ∧ Exists c' k = false
                ∧ rtc step_returning (LRUCache_new 0 callback) c')
         ∧ (∀ f ex, callback = Some f → CleanUp f (k, v) = Some ex →
              Put k v c = (Thrown ex, c1, [(k, v)]))).
Proof.
  intros callback c k v.
  assert (rtc step_returning (LRUCache_new 0 callback) c) as Hr
    by apply rtc_refl.
  split; [exact Hr|].
  exact (C10_capacity_zero_insert_then_evict callback c k v Hr).
Defined.

Lemma C7_witness :
  let c := main_cache_after_puts in
  (Exists c 10%Z = false ∨ (reachable c ∧ 10%Z ∉ keys c))
  ∧ Get 10%Z c
    = (Thrown (range_error "There is no such key in cache"), c, []).
Proof.
  intros c.
  assert (Exists c 10%Z = false ∨ (reachable c ∧ 10%Z ∉ keys c)) as Hk
    by (left; reflexivity).
  split; [exact Hk|]. exact (C7_Get_absent_key c 10%Z Hk).
Defined.


End LRU_facts.

(** * Properties of the key format *)

Module TCB_facts.
Import TCB.

Implicit Types (str host token : list ascii) (ch a : ascii).

(** ** [find], [find_first_not_of] and [substr] at a known position *)

Lemma size_app str1 str2 : size (str1 ++ str2) = (size str1 + size str2)%N.
Proof. unfold size. rewrite length_app. lia. Qed.

Lemma drop_size str1 str2 : drop (N.to_nat (size str1)) (str1 ++ str2) = str2.
Proof. unfold size. rewrite Nat2N.id. apply drop_app_length. Qed.

Lemma find_at str1 str2 ch :
  find (str1 ++ str2) ch (size str1) =
    match list_find (λ a, a = ch) str2 with
    | Some (i, _) => (size str1 + N.of_nat i)%N
    | None => npos
    end.
Proof.
  unfold find. rewrite drop_size, size_app.
  destruct (N.leb_spec (size str1 + size str2) (size str1)) as [Hle|Hlt]; [|done].
  assert (str2 = []) as ->; [|done].
  apply length_zero_iff_nil. unfold size in Hle. lia.
Qed.

Lemma find_first_not_of_at str1 str2 ch :
  find_first_not_of (str1 ++ str2) ch (size str1) =
    match list_find (λ a, a ≠ ch) str2 with
    | Some (i, _) => (size str1 + N.of_nat i)%N
    | None => npos
    end.
Proof.
  unfold find_first_not_of. rewrite drop_size, size_app.
  destruct (N.leb_spec (size str1 + size str2) (size str1)) as [Hle|Hlt]; [|done].
  assert (str2 = []) as ->; [|done].
  apply length_zero_iff_nil. unfold size in Hle. lia.
Qed.

Lemma find_first_not_of_npos str ch :
  (size str < npos)%N → find_first_not_of str ch npos = npos.
Proof.
  intros Hlt. unfold find_first_not_of.
  destruct (N.leb_spec (size str) npos); [done|lia].
Qed.

(** [substr] from a known position, asked for at least what is there. *)
Lemma substr_at str1 str2 str3 count :
  count = size str2 ∨ (str3 = [] ∧ (size str2 ≤ count)%N) →
  substr (str1 ++ str2 ++ str3) (size str1) count = Returned str2.
Proof.
  intros Hcount. unfold substr. rewrite drop_size, !size_app.
  destruct (N.ltb_spec (size str1 + (size str2 + size str3)) (size str1));
    [lia|].
  f_equal. destruct Hcount as [->|[-> Hle]].
  - rewrite N.min_l by lia. unfold size. rewrite Nat2N.id.
    apply take_app_length.
  - rewrite app_nil_r. apply take_ge. unfold size in *. simpl. lia.
Qed.

Lemma find_at_0 str ch :
  find str ch 0 =
    match list_find (λ a, a = ch) str with
    | Some (i, _) => N.of_nat i
    | None => npos
    end.
Proof. apply (find_at [] str ch). Qed.

Lemma find_first_not_of_at_0 str ch :
  find_first_not_of str ch 0 =
    match list_find (λ a, a ≠ ch) str with
    | Some (i, _) => N.of_nat i
    | None => npos
    end.
Proof. apply (find_first_not_of_at [] str ch). Qed.

Lemma substr_at_0 str2 str3 count :
  count = size str2 ∨ (str3 = [] ∧ (size str2 ≤ count)%N) →
  substr (str2 ++ str3) 0 count = Returned str2.
Proof. apply (substr_at [] str2 str3). Qed.

Lemma list_find_absent ch str :
  ch ∉ str → list_find (λ a, a = ch) str = None.
Proof.
  intros Hch. apply list_find_None, Forall_forall. by intros a Ha ->.
Qed.

Lemma list_find_first ch str1 str2 :
  ch ∉ str1 →
  list_find (λ a, a = ch) (str1 ++ ch :: str2) = Some (length str1, ch).
Proof.
  intros Hch. rewrite list_find_app_r by by apply list_find_absent.
  simpl. by rewrite decide_True.
Qed.

Lemma list_find_not_head ch a str :
  a ≠ ch → list_find (λ a, a ≠ ch) (a :: str) = Some (0, a).
Proof. intros Ha. simpl. by rewrite decide_True. Qed.

Lemma size_t_sub_le (a b : N) :
  (b ≤ a)%N → (a < 2 ^ 64)%N → size_t_sub a b = (a - b)%N.
Proof.
  intros Hle Hlt. unfold size_t_sub.
  replace (a + 2 ^ 64 - b)%N with ((a - b) + 1 * 2 ^ 64)%N by lia.
  rewrite N.Div0.mod_add. apply N.mod_small. lia.
Qed.

(** ** The loop of [Tokenize], one iteration at a time *)

Lemma Tokenize_loop_done fuel str ch (tokens : list (list ascii)) :
  Tokenize_loop fuel str ch npos tokens = Some (Returned tokens).
Proof. by destruct fuel. Qed.

Lemma Tokenize_loop_step fuel str ch start end_ token
    (tokens : list (list ascii)) :
  start ≠ npos → find str ch start = end_ →
  substr str start (size_t_sub end_ start) = Returned token →
  Tokenize_loop (S fuel) str ch start tokens =
    Tokenize_loop fuel str ch (find_first_not_of str ch end_)
      (tokens ++ [token]).
Proof.
  intros Hstart Hend Hsub. simpl.
  destruct (N.eqb_spec start npos) as [|_]; [done|].
  by rewrite Hend, Hsub.
Qed.

(** A key without delimiter is one token (none when it is empty). *)
Lemma Tokenize_one str ch :
  ch ∉ str → (size str < npos)%N →
  Tokenize str ch = Some (Returned (if decide (str = []) then [] else [str])).
Proof.
  intros Hch Hsz. unfold Tokenize. destruct str as [|a str]; [done|].
  rewrite decide_False by done.
  assert (a ≠ ch) as Ha by (intros ->; apply Hch; left).
  rewrite find_first_not_of_at_0, list_find_not_head by done.
  rewrite (Tokenize_loop_step _ _ _ _ npos (a :: str)).
  - rewrite find_first_not_of_npos by done. apply Tokenize_loop_done.
  - done.
  - rewrite find_at_0, list_find_absent; done.
  - rewrite size_t_sub_le by done.
    rewrite <- (app_nil_r (a :: str)) at 1. apply substr_at_0.
    right. split; [done|]. unfold npos in *. lia.
Qed.

(** A key of two non-empty tokens around one delimiter. *)
Lemma Tokenize_two host token ch :
  host ≠ [] → ch ∉ host → token ≠ [] → ch ∉ token →
  (size (host ++ ch :: token) < npos)%N →
  Tokenize (host ++ ch :: token) ch = Some (Returned [host; token]).
Proof.
  intros Hh Hhc Ht Htc Hsz. unfold Tokenize.
  assert (∃ a host', host = a :: host' ∧ a ≠ ch) as (a & host' & Hhost & Ha).
  { destruct host as [|a host']; [done|]. exists a, host'. split; [done|].
    intros ->. apply Hhc. left. }
  assert (∃ b token', token = b :: token' ∧ b ≠ ch) as (b & token' & Htoken & Hb).
  { destruct token as [|b token']; [done|]. exists b, token'. split; [done|].
    intros ->. apply Htc. left. }
  pose proof Hsz as Hsz'. rewrite (size_app host (ch :: token)) in Hsz'.
  change (ch :: token) with ([ch] ++ token) in Hsz'.
  rewrite size_app in Hsz'. change (size [ch]) with 1%N in Hsz'.
  rewrite find_first_not_of_at_0.
  assert (list_find (λ a0, a0 ≠ ch) (host ++ ch :: token) = Some (0, a)) as ->.
  { rewrite Hhost. by apply list_find_not_head. }
  rewrite length_app. simpl length. rewrite Nat.add_succ_r.
  rewrite (Tokenize_loop_step _ _ _ _ (size host) host); cycle 1.
  { done. }
  { by rewrite find_at_0, list_find_first. }
  { rewrite size_t_sub_le by (unfold npos in *; lia). rewrite N.sub_0_r.
    apply substr_at_0. by left. }
  rewrite (find_first_not_of_at host (ch :: token) ch).
  assert (list_find (λ a0, a0 ≠ ch) (ch :: token) = Some (1, b)) as ->.
  { rewrite Htoken. simpl. rewrite decide_False by (by intros Hne; apply Hne).
    by rewrite decide_True. }
  replace (host ++ ch :: token) with ((host ++ [ch]) ++ token ++ [])
    by (by rewrite app_nil_r, <- app_assoc).
  replace (size host + N.of_nat 1)%N with (size (host ++ [ch]))
    by (rewrite size_app; done).
  rewrite (Tokenize_loop_step _ _ _ _ npos token).
  - rewrite find_first_not_of_npos; [apply Tokenize_loop_done|].
    rewrite !size_app. change (size []) with 0%N. change (size [ch]) with 1%N.
    lia.
  - rewrite size_app. change (size [ch]) with 1%N. unfold npos in *. lia.
  - rewrite app_nil_r. rewrite find_at, list_find_absent; done.
  - apply substr_at. right. split; [done|].
    rewrite size_t_sub_le; rewrite ?size_app; change (size [ch]) with 1%N;
      unfold npos in *; lia.
Qed.

(** ** The loop of [Tokenize] terminates within its fuel *)

Lemma find_spec str ch pos :
  (pos < size str)%N →
  find str ch pos = npos
  ∨ ((pos ≤ find str ch pos < size str)%N
     ∧ str !! N.to_nat (find str ch pos) = Some ch).
Proof.
  intros Hpos. unfold find.
  destruct (N.leb_spec (size str) pos) as [|_]; [lia|].
  destruct (list_find _ _) as [[i x]|] eqn:Hf; [right|by left].
  apply list_find_Some in Hf as (Hi & -> & _).
  rewrite lookup_drop in Hi. pose proof (lookup_lt_Some _ _ _ Hi) as Hlt.
  unfold size in *. split; [lia|].
  by replace (N.to_nat (pos + N.of_nat i)) with (N.to_nat pos + i) by lia.
Qed.

Lemma find_first_not_of_spec str ch pos :
  (pos < size str)%N →
  find_first_not_of str ch pos = npos
  ∨ ((pos ≤ find_first_not_of str ch pos < size str)%N
     ∧ str !! N.to_nat (find_first_not_of str ch pos) ≠ Some ch).
Proof.
  intros Hpos. unfold find_first_not_of.
  destruct (N.leb_spec (size str) pos) as [|_]; [lia|].
  destruct (list_find _ _) as [[i x]|] eqn:Hf; [right|by left].
  apply list_find_Some in Hf as (Hi & Hx & _).
  rewrite lookup_drop in Hi. pose proof (lookup_lt_Some _ _ _ Hi) as Hlt.
  unfold size in *. split; [lia|].
  replace (N.to_nat (pos + N.of_nat i)) with (N.to_nat pos + i) by lia.
  rewrite Hi. congruence.
Qed.

Lemma substr_defined str pos count :
  (pos ≤ size str)%N → ∃ token, substr str pos count = Returned token.
Proof.
  intros Hpos. unfold substr.
  destruct (N.ltb_spec (size str) pos) as [|_]; [lia|]. eauto.
Qed.

Lemma Tokenize_loop_total str ch fuel start (tokens : list (list ascii)) :
  (size str < npos)%N →
  start = npos ∨ ((start < size str)%N ∧ N.to_nat (size str - start) ≤ fuel) →
  ∃ tokens', Tokenize_loop fuel str ch start tokens = Some (Returned tokens').
Proof.
  intros Hsz. revert start tokens.
  induction fuel as [|fuel IH]; intros start tokens [->|[Hstart Hfuel]].
  - by exists tokens.
  - lia.
  - by exists tokens.
  - destruct (substr_defined str start (size_t_sub (find str ch start) start))
      as [token Htoken]; [lia|].
    rewrite (Tokenize_loop_step _ _ _ _ _ token tokens) by (done || lia).
    apply IH. destruct (find_spec str ch start Hstart) as [->|[Hend Hch]].
    { left. by apply find_first_not_of_npos. }
    destruct (find_first_not_of_spec str ch (find str ch start))
      as [->|[Hnext Hnch]]; [lia|by left|right].
    assert (find_first_not_of str ch (find str ch start) ≠ find str ch start)
      as Hne by (intros Heq; rewrite Heq in Hnch; done).
    lia.
Qed.

(** [Tokenize] returns for every string (shorter than [npos], as every
    [std::string] is), and so [Retrive] yields an outcome. *)
Lemma Tokenize_total str ch :
  (size str < npos)%N → ∃ tokens, Tokenize str ch = Some (Returned tokens).
Proof.
  intros Hsz. unfold Tokenize. apply Tokenize_loop_total; [done|].
  destruct (decide (str = [])) as [->|Hne]; [by left|].
  assert (0 < size str)%N as Hpos.
  { destruct str; [done|]. unfold size. simpl. lia. }
  destruct (find_first_not_of_spec str ch 0 Hpos) as [->|[Hstart _]];
    [by left|right].
  split; [lia|]. unfold size in *. lia.
Qed.

Lemma Retrive_total key :
  (size key < npos)%N → is_Some (Retrive key).
Proof.
  intros Hsz. unfold Retrive.
  destruct (Tokenize_total key ":"%char Hsz) as [strs ->].
  destruct (strs !! 0), (strs !! 1); try done. by destruct (stoi _).
Qed.

(** ** Decimal digits: [operator<<] and [stoi] *)

Lemma digit_char_isdigit (d : N) :
  (d < 10)%N →
  isdigit (digit_char d) = true ∧ N_of_ascii (digit_char d) = (48 + d)%N.
Proof.
  intros Hd. unfold isdigit, digit_char.
  rewrite N_ascii_embedding by lia. split; [|done].
  apply andb_true_iff. split; apply N.leb_le; lia.
Qed.

Lemma isdigit_not_special a :
  isdigit a = true →
  a ≠ ":"%char ∧ a ≠ "-"%char ∧ a ≠ "+"%char ∧ isspace a = false.
Proof.
  intros Ha. split_and!; try (intros ->; vm_compute in Ha; discriminate).
  unfold isdigit, isspace in *. apply andb_true_iff in Ha as [H1 H2].
  apply N.leb_le in H1.
  apply orb_false_iff. split; [apply N.eqb_neq; lia|].
  apply andb_false_iff. right. apply N.leb_gt. lia.
Qed.

Lemma show_digits_value fuel n acc :
  (n < 2 ^ N.of_nat fuel)%N →
  stoi_digits (show_digits fuel n acc) 0 = stoi_digits acc (Z.of_N n).
Proof.
  revert n acc. induction fuel as [|fuel IH]; intros n acc Hn.
  { simpl in *. by replace n with 0%N by lia. }
  assert (n mod 10 < 10)%N as Hd by (apply N.mod_lt; lia).
  destruct (digit_char_isdigit _ Hd) as [Hdig Hcode].
  pose proof (N.div_mod n 10 ltac:(lia)) as Hdm.
  assert (stoi_digits (digit_char (n mod 10) :: acc) (Z.of_N (n / 10))
          = stoi_digits acc (Z.of_N n)) as Hstep.
  { simpl. rewrite Hdig, Hcode. f_equal. lia. }
  simpl. destruct (N.eqb_spec (n / 10) 0) as [Hz|Hnz].
  - rewrite <- Hstep, Hz. done.
  - rewrite IH; [done|].
    rewrite Nat2N.inj_succ, N.pow_succ_r' in Hn.
    apply N.Div0.div_lt_upper_bound. lia.
Qed.

Lemma show_digits_isdigit fuel n acc :
  Forall (λ a, isdigit a = true) acc →
  Forall (λ a, isdigit a = true) (show_digits fuel n acc).
Proof.
  revert n acc. induction fuel as [|fuel IH]; intros n acc Hacc; [done|].
  assert (n mod 10 < 10)%N as Hd by (apply N.mod_lt; lia).
  destruct (digit_char_isdigit _ Hd) as [Hdig _].
  simpl. destruct (n / 10 =? 0)%N; [|apply IH]; by constructor.
Qed.

Lemma show_digits_nonempty_acc fuel n acc :
  acc ≠ [] → show_digits fuel n acc ≠ [].
Proof.
  revert n acc. induction fuel as [|fuel IH]; intros n acc Hacc; [done|].
  simpl. destruct (n / 10 =? 0)%N; [done|by apply IH].
Qed.

Lemma show_digits_nonempty fuel n acc : show_digits (S fuel) n acc ≠ [].
Proof.
  simpl. destruct (n / 10 =? 0)%N; [done|].
  by apply show_digits_nonempty_acc.
Qed.

Lemma show_N_spec (n : N) :
  ∃ a s, show_N n = a :: s
    ∧ Forall (λ a, isdigit a = true) (a :: s)
    ∧ stoi_digits (a :: s) 0 = Z.of_N n.
Proof.
  unfold show_N.
  destruct (show_digits (S (N.to_nat (N.log2 n))) n []) as [|a s] eqn:Hs.
  { by apply show_digits_nonempty in Hs. }
  exists a, s. split; [done|]. rewrite <- Hs. split.
  - by apply show_digits_isdigit.
  - rewrite show_digits_value; [done|].
    rewrite Nat2N.inj_succ, N2Nat.id.
    destruct (N.eq_dec n 0%N) as [->|Hnz]; [done|].
    apply N.log2_spec. lia.
Qed.

Lemma stoi_unsigned a s :
  isdigit a = true →
  stoi (a :: s) =
    let n := stoi_digits (a :: s) 0 in
    if ((n <? INT_MIN) || (INT_MAX <? n))%Z then Thrown (out_of_range "stoi")
    else Returned n.
Proof.
  intros Ha. destruct (isdigit_not_special a Ha) as (_ & Hm & Hp & Hsp).
  unfold stoi. simpl skip_spaces. rewrite Hsp.
  destruct a as [[] [] [] [] [] [] [] []]; try done; by rewrite Ha.
Qed.

Lemma stoi_negative a s :
  isdigit a = true →
  stoi ("-"%char :: a :: s) =
    let z := (- stoi_digits (a :: s) 0)%Z in
    if ((z <? INT_MIN) || (INT_MAX <? z))%Z then Thrown (out_of_range "stoi")
    else Returned z.
Proof. intros Ha. unfold stoi. simpl skip_spaces. cbv iota beta. by rewrite Ha. Qed.

Lemma in_int_range (z : Z) :
  (INT_MIN ≤ z ≤ INT_MAX)%Z → ((z <? INT_MIN) || (INT_MAX <? z))%Z = false.
Proof.
  intros [Hl Hu]. apply orb_false_iff. split; apply Z.ltb_ge; lia.
Qed.

(** What [ss << port] writes, [stoi] reads back. *)
Lemma stoi_show_int (z : Z) :
  (INT_MIN ≤ z ≤ INT_MAX)%Z → stoi (show_int z) = Returned z.
Proof.
  intros Hz. unfold show_int. destruct (Z.ltb_spec z 0) as [Hneg|Hpos].
  - destruct (show_N_spec (Z.to_N (- z))) as (a & s & -> & Hdig & Hval).
    apply Forall_cons in Hdig as [Ha _].
    rewrite stoi_negative, Hval by done. cbv zeta.
    replace (- Z.of_N (Z.to_N (- z)))%Z with z by lia.
    by rewrite in_int_range.
  - destruct (show_N_spec (Z.to_N z)) as (a & s & -> & Hdig & Hval).
    apply Forall_cons in Hdig as [Ha _].
    rewrite stoi_unsigned, Hval by done. cbv zeta.
    replace (Z.of_N (Z.to_N z)) with z by lia.
    by rewrite in_int_range.
Qed.

Lemma show_int_token (z : Z) : show_int z ≠ [] ∧ ":"%char ∉ show_int z.
Proof.
  assert (∀ n, ":"%char ∉ show_N n) as Hcolon.
  { intros n Hin. destruct (show_N_spec n) as (a & s & Heq & Hdig & _).
    rewrite Heq in Hin. rewrite Forall_forall in Hdig.
    apply Hdig in Hin. vm_compute in Hin. discriminate. }
  unfold show_int. destruct (z <? 0)%Z.
  - split; [done|]. apply not_elem_of_cons. split; [done|apply Hcolon].
  - split; [|apply Hcolon].
    by destruct (show_N_spec (Z.to_N z)) as (a & s & -> & _).
Qed.

(** ** [Retrive] *)

Lemma stoi_not_a_number str :
  starts_with_number str = false → stoi str = Thrown (invalid_argument "stoi").
Proof.
  unfold starts_with_number, stoi.
  destruct (skip_spaces str) as [|a s]; [done|].
  destruct a as [[] [] [] [] [] [] [] []];
    try (by intros ->); destruct s as [|b s]; by try intros ->.
Qed.

Lemma Retrive_two host token :
  host ≠ [] → ":"%char ∉ host → token ≠ [] → ":"%char ∉ token →
  (size (host ++ [":"%char] ++ token) < npos)%N →
  Retrive (host ++ [":"%char] ++ token) =
    match stoi token with
    | Returned port => Some (Returned (host, port))
    | Thrown e => Some (Thrown e)
    | Undefined => Some Undefined
    end.
Proof.
  intros Hh Hhc Ht Htc Hsz. unfold Retrive.
  change ([":"%char] ++ token) with (":"%char :: token) in *.
  by rewrite (Tokenize_two host token ":"%char).
Qed.

(** Without a delimiter there is no [strs[1]]: the call is undefined. *)
Lemma Retrive_no_delimiter key :
  ":"%char ∉ key → (size key < npos)%N → Retrive key = Some Undefined.
Proof.
  intros Hc Hsz. unfold Retrive. rewrite Tokenize_one by done.
  by destruct (decide (key = [])).
Qed.

(** ** The claims *)

(** C8 as stated fails for the empty host: [Combined] gives [":80"],
    [Tokenize] skips the leading delimiter and finds the single token
    ["80"], and [Retrive] reads [strs[1]] out of range. *)
Lemma C8_counterexample_empty_host :
  (":"%char ∉ (@nil ascii))
  ∧ Combined ([], 80%Z) = list_ascii_of_string ":80"
  ∧ Tokenize (Combined ([], 80%Z)) ":"%char
      = Some (Returned [list_ascii_of_string "80"])
  ∧ Retrive (Combined ([], 80%Z)) = Some Undefined
  ∧ Retrive (Combined ([], 80%Z)) ≠ Some (Returned ([], 80%Z)).
Proof. split_and!; [apply not_elem_of_nil|done..]. Qed.

(** C8 (as amended). For a non-empty host without [':'] and a port that
    is an [int], [Retrive] applied to the [Combined] string returns the
    pair it was made from. *)
Theorem C8_round_trip host (port : Z) :
  host ≠ [] → ":"%char ∉ host → (INT_MIN ≤ port ≤ INT_MAX)%Z →
  (size (Combined (host, port)) < npos)%N →
  Retrive (Combined (host, port)) = Some (Returned (host, port)).
Proof.
  intros Hh Hhc Hport Hsz. unfold Combined in *. simpl fst in *. simpl snd in *.
  destruct (show_int_token port) as [Ht Htc].
  rewrite Retrive_two by done. by rewrite stoi_show_int.
Qed.

Lemma C8_witness :
  let host := list_ascii_of_string "127.0.0.1" in
  (host ≠ [] ∧ (":"%char ∉ host) ∧ (INT_MIN ≤ 80 ≤ INT_MAX)%Z
   ∧ (size (Combined (host, 80%Z)) < npos)%N)
  ∧ Retrive (Combined (host, 80%Z)) = Some (Returned (host, 80%Z)).
Proof.
  intros host.
  assert (":"%char ∉ host) as Hc.
  { apply (bool_decide_unpack _). vm_compute. exact I. }
  split; [split_and!; [done|exact Hc|done..]|].
  apply (C8_round_trip host 80%Z); [done|exact Hc|done..].
Defined.

(** C9 as stated fails: a key without delimiter makes [Retrive] read
    [strs[1]] out of range, which is undefined behaviour and no
    exception; and a port token that only starts with digits is
    accepted. *)
Lemma C9_counterexample_no_delimiter :
  Retrive (list_ascii_of_string "localhost") = Some Undefined
  ∧ Retrive (list_ascii_of_string "localhost:80abc")
    = Some (Returned (list_ascii_of_string "localhost", 80%Z)).
Proof. split; reflexivity. Qed.

(** C9 (as amended). For a key of a non-empty host, a [':'] and a
    non-empty port token that does not start with a number, [Retrive]
    throws the [invalid_argument] of [stoi]. *)
Theorem C9_non_numeric_port host token :
  host ≠ [] → ":"%char ∉ host → token ≠ [] → ":"%char ∉ token →
  (size (host ++ [":"%char] ++ token) < npos)%N →
  starts_with_number token = false →
  Retrive (host ++ [":"%char] ++ token) = Some (Thrown (invalid_argument "stoi")).
Proof.
  intros Hh Hhc Ht Htc Hsz Hnum.
  rewrite Retrive_two by done. by rewrite stoi_not_a_number.
Qed.

Lemma C9_witness :
  let host := list_ascii_of_string "localhost" in
  let token := list_ascii_of_string "http" in
  (host ≠ [] ∧ (":"%char ∉ host) ∧ token ≠ [] ∧ (":"%char ∉ token)
   ∧ (size (host ++ [":"%char] ++ token) < npos)%N
   ∧ starts_with_number token = false)
  ∧ Retrive (host ++ [":"%char] ++ token) = Some (Thrown (invalid_argument "stoi")).
Proof.
  intros host token.
  assert (":"%char ∉ host) as Hc1.
  { apply (bool_decide_unpack _). vm_compute. exact I. }
  assert (":"%char ∉ token) as Hc2.
  { apply (bool_decide_unpack _). vm_compute. exact I. }
  split; [split_and!; [done|exact Hc1|done|exact Hc2|done..]|].
  apply (C9_non_numeric_port host token); [done|exact Hc1|done|exact Hc2|done..].
Defined.

End TCB_facts.

(** * Further properties of the cache *)

Module LRU_laws.
Import LRU LRU_facts.
Section LRUCache.
Context {K : Type} `{Countable K} {V : Type}.

Abbreviation KeyValuePair := (K * V)%type (only parsing).
Abbreviation node := nat (only parsing).
Implicit Types (c : @LRUCache K _ _ V) (k : K) (v : V).
Implicit Types (cb callback : option (@CleanupCallback K V)).
Implicit Types (its : list KeyValuePair) (l : list (node * KeyValuePair)).

Lemma Inv_node_lookup c n k v :
  Inv c → (n, (k, v)) ∈ cache_items_list_ c →
  node_lookup n (cache_items_list_ c) = Some (k, v).
Proof.
  intros HI Hin. apply list_elem_of_split in Hin as (l1 & l2 & Hl).
  destruct (Inv_split c l1 l2 n k v HI Hl) as (Hn & _).
  rewrite Hl. by apply node_lookup_app.
Qed.

(** The sequence after [Put], whatever the outcome, starts with the new
    pair as soon as the capacity is not 0. *)
Lemma Put_items_head max_size cb k v its :
  1 ≤ max_size →
  ∃ its', (Put_items max_size cb k v its).1.2 = (k, v) :: its'.
Proof.
  intros Hpos. unfold Put_items, Evict_items.
  case_decide as Hlt; [|by eexists].
  destruct (drop_key k its) as [|e0 d] eqn:Hd; [simpl in Hlt; lia|].
  rewrite last_cons_cons.
  destruct (last (e0 :: d)) as [e|] eqn:Hlast; [|by eexists].
  change (removelast ((k, v) :: e0 :: d)) with ((k, v) :: removelast (e0 :: d)).
  destruct cb as [f|]; [destruct (CleanUp f e)|]; simpl; by eexists.
Qed.


(** X2. In a reachable state no key is stored twice, and every iterator
    the Key Index holds points to a live node of the list, the one that
    holds this key. *)
Theorem index_points_into_list c :
  reachable c →
  NoDup (keys c)
  ∧ ∀ k n, cache_items_map_ c !! k = Some n →
      ∃ v, node_lookup n (cache_items_list_ c) = Some (k, v).
Proof.
  intros Hr. apply reachable_Inv in Hr as HI. split; [apply (Inv_keys c HI)|].
  intros k n Hn. apply (Inv_map c HI) in Hn as [v Hin].
  exists v. by apply Inv_node_lookup.
Qed.

(** X3. [Get] on a present key, in a reachable state: the call returns
    the value stored with the key, calls no [CleanUp], moves the entry
    to the front of the Recency Sequence and leaves the other entries in
    their order; [Size()] and the Key Index are unchanged. *)
Theorem Get_present c k :
  reachable c → Exists c k = true →
  ∃ c' v i1 i2,
    Get k c = (Returned v, c', [])
    ∧ items c = i1 ++ (k, v) :: i2
    ∧ items c' = (k, v) :: i1 ++ i2
    ∧ Size c' = Size c
    ∧ cache_items_map_ c' = cache_items_map_ c.
Proof.
  intros Hr HE. apply reachable_Inv in Hr as HI.
  rewrite (Inv_Exists c k HI) in HE. apply bool_decide_eq_true in HE.
  destruct (keys_split k (items c) (Inv_keys c HI) HE)
    as (i1 & v & i2 & Hits & Hk1 & Hk2).
  destruct (Get k c) as [[r c'] t] eqn:HG.
  apply Get_refines in HG as (-> & HG & _ & _ & _ & Hmap); [|done].
  unfold Get_items in HG.
  rewrite Hits, find_key_split, drop_key_split in HG by done.
  injection HG as -> Hits'. exists c', v, i1, i2.
  split_and!; [done..| |done]. unfold Size. by rewrite Hmap.
Qed.

(** X4. With a capacity of at least 1, what [Put] stores [Get] returns:
    after a [Put] on a reachable cache, of arguments that designate [k]
    and [v] and do not refer into the node [Put] erases, [Get(k)]
    returns [v], even if the [Put] was left by an exception of the
    callback. *)
Theorem Get_after_Put c (key : ref K) (value : ref V) k v :
  reachable c → 1 ≤ max_size_ c → safe_arguments c key value k v →
  ∃ c'', Get k (Put_ref key value c).1.2 = (Returned v, c'', []).
Proof.
  intros Hr Hpos Hsafe. apply reachable_Inv in Hr as HI.
  rewrite (Put_ref_safe c key value k v HI Hsafe).
  destruct (Put_run c k v HI) as (c' & HP & Hits & HI' & _ & _).
  rewrite HP. simpl.
  destruct (Put_items_head (max_size_ c) (callback_ c) k v (items c) Hpos)
    as [its' Hhead].
  rewrite Hhead in Hits.
  destruct (Get_run c' k HI') as (c'' & HG & _). exists c''.
  rewrite HG. unfold Get_items. rewrite Hits. simpl.
  by rewrite decide_True.
Qed.

(** X5. [Put] of a new key while there is room, in a reachable state:
    the call returns without calling [CleanUp], the pair is added at the
    front, nothing is removed and [Size()] grows by one. *)
Theorem Put_new_key_with_room c k v :
  reachable c → Exists c k = false → Size c < max_size_ c →
  ∃ c', Put k v c = (Returned tt, c', [])
    ∧ items c' = (k, v) :: items c
    ∧ Size c' = S (Size c).
Proof.
  intros Hr HE Hroom. apply reachable_Inv in Hr as HI.
  rewrite (Inv_Exists c k HI) in HE. apply bool_decide_eq_false in HE.
  rewrite (Inv_Size_items c HI) in Hroom.
  destruct (Put_run c k v HI) as (c' & HP & Hits & HI' & _ & _).
  rewrite Put_items_room in HP, Hits by done. simpl in HP, Hits.
  exists c'. split_and!; [done..|].
  by rewrite (Inv_Size_items c' HI'), (Inv_Size_items c HI), Hits.
Qed.

(** X6. [Put] of a new key on a reachable cache that is full (or over
    capacity): the eviction candidate is the entry at the back of the
    Recency Sequence, whatever calls led to the state.  [CleanUp], if
    set, is called once, with that entry; when the call returns, that
    entry and no other is gone and [Size()] is as before. *)
Theorem Put_new_key_evicts_back c k v its (e : KeyValuePair) :
  reachable c → Exists c k = false → max_size_ c ≤ Size c →
  items c = its ++ [e] →
  ∃ r c',
    Put k v c = (r, c', cleanups (callback_ c) [e])
    ∧ (returns_on (callback_ c) e →
         r = Returned tt
         ∧ items c' = (k, v) :: its
         ∧ Size c' = Size c
         ∧ Exists c' e.1 = false).
Proof.
  intros Hr HE Hfull Hback. apply reachable_Inv in Hr as HI.
  rewrite (Inv_Exists c k HI) in HE. apply bool_decide_eq_false in HE.
  pose proof (Inv_Size_items c HI) as Hsz. rewrite Hsz in Hfull.
  destruct (Put_run c k v HI) as (c' & HP & Hits & HI' & _ & _).
  rewrite Put_items_full in HP, Hits by done.
  rewrite Hback, app_comm_cons in HP, Hits.
  destruct (Evict_items_back (callback_ c) ((k, v) :: its) e) as [Ht Hret].
  rewrite Ht in HP. eexists _, c'. split; [exact HP|].
  intros Hcb. rewrite (Hret Hcb) in Hits |- *. simpl in Hits.
  split_and!; [done..| |].
  - rewrite (Inv_Size_items c' HI'), Hsz, Hits, Hback, length_app. simpl. lia.
  - rewrite (Inv_Exists c' _ HI'). apply bool_decide_eq_false.
    unfold keys. rewrite Hits, fmap_cons. simpl.
    pose proof (Inv_keys c HI) as Hnd. unfold keys in HE, Hnd.
    rewrite Hback, fmap_app in HE, Hnd. simpl in HE, Hnd.
    apply NoDup_app in Hnd as (_ & Hnd & _).
    apply not_elem_of_cons. split.
    + intros Heq. apply HE. rewrite elem_of_app. right. rewrite Heq. left.
    + intros Hin. apply (Hnd _ Hin). left.
Qed.

(** X7. [CleanUp] is called by nothing but an eviction: [Get] never
    calls it, and [Put] calls it at most once, only if a callback is
    set and the cache is full, and then with the entry at the back of
    the sequence that the insertion produced. *)
Theorem CleanUp_only_on_eviction c k k' v :
  reachable c →
  (Get k' c).2 = []
  ∧ ((Put k v c).2 = []
     ∨ ∃ e, (Put k v c).2 = [e]
         ∧ last ((k, v) :: drop_key k (items c)) = Some e
         ∧ max_size_ c ≤ Size c
         ∧ is_Some (callback_ c)).
Proof.
  intros Hr. apply reachable_Inv in Hr as HI. split.
  - destruct (Get_run c k' HI) as (c' & -> & _). done.
  - destruct (Put_run c k v HI) as (c' & -> & _). simpl.
    unfold Put_items, Evict_items. case_decide as Hlt; [|by left].
    destruct (last _) as [e|] eqn:Hlast; [|by left].
    destruct (callback_ c) as [f|] eqn:Hcb; [|by left].
    right. exists e. split_and!; [by destruct (CleanUp f e)|done| |done].
    pose proof (drop_key_length k (items c)) as Hd.
    rewrite (Inv_Size_items c HI). simpl in Hlt. lia.
Qed.


(** X8. The capacity and the callback given to the constructor are
    those of every state reached from it: no call changes them. *)
Theorem configuration_is_fixed max_size callback c :
  rtc step (LRUCache_new max_size callback) c →
  max_size_ c = max_size ∧ callback_ c = callback.
Proof.
  intros Hr. apply rtc_step_configuration in Hr; [done|apply Inv_new].
Qed.

(** A cache of capacity 1 whose callback returns holds, after any
    [Put], the pair just put and nothing else. *)
Lemma capacity_one_Put c k v :
  Inv c → max_size_ c = 1 → (∀ e, returns_on (callback_ c) e) →
  length (items c) ≤ 1 →
  ∃ c', Put k v c
          = (Returned tt, c', cleanups (callback_ c) (drop_key k (items c)))
    ∧ items c' = [(k, v)] ∧ Inv c'
    ∧ max_size_ c' = max_size_ c ∧ callback_ c' = callback_ c.
Proof.
  intros HI Hm Hquiet Hlen.
  destruct (Put_run c k v HI) as (c' & HP & Hits & HI' & Hm' & Hc').
  pose proof (drop_key_length k (items c)) as Hd.
  assert (Put_items (max_size_ c) (callback_ c) k v (items c)
          = (Returned tt, [(k, v)],
             cleanups (callback_ c) (drop_key k (items c)))) as HPi.
  { unfold Put_items. rewrite Hm.
    destruct (drop_key k (items c)) as [|e [|e' d]]; simpl in *; [| |lia].
    - by destruct (callback_ c).
    - destruct (Evict_items_back (callback_ c) [(k, v)] e) as [_ Hret].
      by apply Hret. }
  rewrite HPi in HP, Hits. exists c'. done.
Qed.

Lemma Put_returns c k v :
  Inv c → (∀ e, returns_on (callback_ c) e) → (Put k v c).1.1 = Returned tt.
Proof.
  intros HI Hquiet. destruct (Put_run c k v HI) as (c' & -> & _). simpl.
  unfold Put_items, Evict_items. case_decide; [|done].
  destruct (last _) as [e|] eqn:Hlast; [|by apply last_None in Hlast].
  specialize (Hquiet e). destruct (callback_ c) as [f|]; [|done].
  simpl in Hquiet. by rewrite Hquiet.
Qed.

Lemma step_quiet c c' :
  Inv c → (∀ e, returns_on (callback_ c) e) → step c c' →
  step_returning c c'.
Proof.
  intros HI Hquiet Hs.
  inversion Hs as [c0 k v r c1 t HP|c0 k r c1 t HG|c0 k b Hb|c0 n Hn]; subst.
  - pose proof (Put_returns c k v HI Hquiet) as Hr. rewrite HP in Hr.
    simpl in Hr. subst r. by eapply step_returning_Put.
  - by eapply step_returning_Get.
  - apply (step_returning_Exists c' k _ eq_refl).
  - apply (step_returning_Size c' _ eq_refl).
Qed.

Lemma rtc_step_quiet c c' :
  rtc step c c' → Inv c → (∀ e, returns_on (callback_ c) e) →
  rtc step_returning c c'.
Proof.
  induction 1 as [c|c c1 c2 Hs Hrtc IH]; intros HI Hquiet; [apply rtc_refl|].
  eapply rtc_l; [by apply step_quiet|]. apply IH.
  - by eapply step_Inv.
  - destruct (rtc_step_configuration c c1 (rtc_once _ _ Hs) HI) as [_ ->].
    done.
Qed.


(** X21. [Put(k, Get(k))] on a present key has undefined behaviour in
    every reachable state: [Get] hands out a reference into the node
    of [k], [Put] erases that node and then copies the value through
    the reference. *)
Theorem Put_of_own_Get_is_undefined c k :
  reachable c → Exists c k = true →
  ((value ← Get_ref k; Put_ref (elsewhere k) value) c).1.1 = Undefined.
Proof.
  intros Hr HE. apply reachable_Inv in Hr as HI.
  destruct (Get_ref_run c k HI HE) as (c' & it & HG & HI' & Hit).
  rewrite (bind_Returned _ _ c _ c' HG).
  apply Put_ref_unsafe; [done|].
  intros (k' & v' & Hk & _ & Hnot). injection Hk as <-.
  by destruct (Hnot it Hit) as [_ []].
Qed.

End LRUCache.

(** ** At the caches of [main] *)

Import Examples.


Lemma index_points_into_list_witness :
  let c := main_cache_after_puts in
  reachable c
  ∧ (NoDup (keys c)
     ∧ ∀ k n, cache_items_map_ c !! k = Some n →
         ∃ v, node_lookup n (cache_items_list_ c) = Some (k, v)).
Proof.
  intros c.
  assert (reachable c) as Hr by apply reachable_main_cache_after_puts.
  split; [exact Hr|]. exact (index_points_into_list c Hr).
Defined.

Lemma Get_present_witness :
  let c := main_cache_after_puts in
  (reachable c ∧ Exists c 20%Z = true)
  ∧ ∃ c' v i1 i2,
      Get 20%Z c = (Returned v, c', [])
      ∧ items c = i1 ++ (20%Z, v) :: i2
      ∧ items c' = (20%Z, v) :: i1 ++ i2
      ∧ Size c' = Size c
      ∧ cache_items_map_ c' = cache_items_map_ c.
Proof.
  intros c.
  assert (reachable c) as Hr by apply reachable_main_cache_after_puts.
  split; [split; [exact Hr|reflexivity]|].
  apply (Get_present c 20%Z Hr). reflexivity.
Defined.

Lemma Get_after_Put_witness :
  let c := two_entry_cache in
  let key := elsewhere 30%Z in
  let value := in_node 0 in
  (reachable c ∧ 1 ≤ max_size_ c
   ∧ safe_arguments c key value 30%Z "My String"%string)
  ∧ ∃ c'', Get 30%Z (Put_ref key value c).1.2
           = (Returned "My String"%string, c'', []).
Proof.
  intros c key value.
  assert (reachable c) as Hr by apply reachable_Put_all, reachable_new.
  assert (1 ≤ max_size_ c) as Hpos by (vm_compute; lia).
  assert (safe_arguments c key value 30%Z "My String"%string) as Hsafe.
  { split_and!; [reflexivity..|]. intros it Hit. vm_compute in Hit.
    discriminate Hit. }
  split; [split_and!; [exact Hr|exact Hpos|exact Hsafe]|].
  exact (Get_after_Put c key value 30%Z "My String"%string Hr Hpos Hsafe).
Defined.

Lemma Put_new_key_with_room_witness :
  let c := main_cache in
  (reachable c ∧ Exists c 10%Z = false ∧ Size c < max_size_ c)
  ∧ ∃ c', Put 10%Z "My String"%string c = (Returned tt, c', [])
      ∧ items c' = (10%Z, "My String"%string) :: items c
      ∧ Size c' = S (Size c).
Proof.
  intros c.
  assert (reachable c) as Hr by apply reachable_new.
  assert (Size c < max_size_ c) as Hroom by (vm_compute; lia).
  split; [split_and!; [exact Hr|reflexivity|exact Hroom]|].
  apply (Put_new_key_with_room c 10%Z "My String"%string Hr); [reflexivity|].
  exact Hroom.
Defined.

Lemma Put_new_key_evicts_back_witness :
  let c := main_cache_after_puts in
  let e := (20%Z, "test string"%string) in
  (reachable c ∧ Exists c 30%Z = false ∧ max_size_ c ≤ Size c
   ∧ items c = [] ++ [e])
  ∧ ∃ r c',
      Put 30%Z "third"%string c = (r, c', cleanups (callback_ c) [e])
      ∧ (returns_on (callback_ c) e →
           r = Returned tt
           ∧ items c' = (30%Z, "third"%string) :: []
           ∧ Size c' = Size c
           ∧ Exists c' e.1 = false).
Proof.
  intros c e.
  assert (reachable c) as Hr by apply reachable_main_cache_after_puts.
  assert (max_size_ c ≤ Size c) as Hfull by (vm_compute; lia).
  split; [split_and!; [exact Hr|reflexivity|exact Hfull|reflexivity]|].
  apply (Put_new_key_evicts_back c 30%Z "third"%string [] e Hr);
    [reflexivity|exact Hfull|reflexivity].
Defined.

Lemma CleanUp_only_on_eviction_witness :
  let c := full_cache_failing_callback in
  reachable c
  ∧ ((Get 10%Z c).2 = []
     ∧ ((Put 20%Z "test string"%string c).2 = []
        ∨ ∃ e, (Put 20%Z "test string"%string c).2 = [e]
            ∧ last ((20%Z, "test string"%string) :: drop_key 20%Z (items c))
              = Some e
            ∧ max_size_ c ≤ Size c
            ∧ is_Some (callback_ c))).
Proof.
  intros c.
  assert (reachable c) as Hr by apply reachable_full_cache_failing_callback.
  split; [exact Hr|]. exact (CleanUp_only_on_eviction c 20%Z 10%Z "test string"%string Hr).
Defined.

Lemma configuration_is_fixed_witness :
  rtc step (LRUCache_new 1 None) main_cache_after_puts
  ∧ (max_size_ main_cache_after_puts = 1
     ∧ callback_ main_cache_after_puts = None).
Proof.
  assert (rtc step (LRUCache_new 1 None) main_cache_after_puts) as Hr.
  { eapply rtc_subrel; [apply @step_returning_step|].
    apply (Put_all_returning
             [(10%Z, "My String"%string); (20%Z, "test string"%string)]
             main_cache main_cache_after_puts []).
    vm_compute. reflexivity. }
  split; [exact Hr|]. exact (configuration_is_fixed 1 None _ Hr).
Defined.


Lemma Put_of_own_Get_is_undefined_witness :
  let c := main_cache_after_puts in
  (reachable c ∧ Exists c 20%Z = true)
  ∧ ((value ← Get_ref 20%Z; Put_ref (elsewhere 20%Z) value) c).1.1 = Undefined.
Proof.
  intros c.
  assert (reachable c) as Hr by apply reachable_main_cache_after_puts.
  split; [split; [exact Hr|reflexivity]|].
  apply (Put_of_own_Get_is_undefined c 20%Z Hr). reflexivity.
Defined.

End LRU_laws.

(** * Further properties of the key format *)

Module TCB_laws.
Import TCB TCB_facts.

Implicit Types (str host token cur : list ascii) (ch a : ascii).
Implicit Types (tokens : list (list ascii)).

(** ** [tokens_of] *)

Lemma tokens_of_app_free ch str1 str2 cur :
  ch ∉ str1 → tokens_of ch (str1 ++ str2) cur = tokens_of ch str2 (cur ++ str1).
Proof.
  revert cur. induction str1 as [|a str1 IH]; intros cur Hch; simpl.
  { by rewrite app_nil_r. }
  apply not_elem_of_cons in Hch as [Hne Hch].
  rewrite decide_False by congruence. rewrite IH by done.
  by rewrite <- app_assoc.
Qed.

Lemma tokens_of_delimiters ch str1 str2 :
  Forall (λ a, a = ch) str1 →
  tokens_of ch (str1 ++ str2) [] = tokens_of ch str2 [].
Proof.
  induction 1 as [|a str1 -> _ IH]; [done|].
  simpl. by rewrite decide_True.
Qed.

Lemma tokens_of_free ch str :
  ch ∉ str → str ≠ [] → tokens_of ch str [] = [str].
Proof.
  intros Hch Hne. rewrite <- (app_nil_r str) at 1.
  rewrite tokens_of_app_free by done. simpl. by rewrite decide_False.
Qed.

Lemma tokens_of_token ch token str :
  ch ∉ token → token ≠ [] →
  tokens_of ch (token ++ ch :: str) [] = token :: tokens_of ch str [].
Proof.
  intros Hch Hne. rewrite tokens_of_app_free by done. simpl.
  rewrite decide_True by done. by rewrite decide_False.
Qed.

Lemma tokens_of_app ch str1 str2 cur :
  tokens_of ch (str1 ++ ch :: str2) cur
  = tokens_of ch str1 cur ++ tokens_of ch str2 [].
Proof.
  revert cur. induction str1 as [|a str1 IH]; intros cur; simpl.
  { rewrite decide_True by done. by destruct (decide (cur = [])). }
  destruct (decide (a = ch)); [|apply IH].
  by rewrite IH, app_assoc.
Qed.

Lemma tokens_of_valid ch str cur :
  ch ∉ cur → Forall (λ token, token ≠ [] ∧ ch ∉ token) (tokens_of ch str cur).
Proof.
  revert cur. induction str as [|a str IH]; intros cur Hcur; simpl.
  { destruct (decide (cur = [])); repeat constructor; done. }
  destruct (decide (a = ch)) as [->|Hne].
  - apply Forall_app. split; [|apply IH, not_elem_of_nil].
    destruct (decide (cur = [])); repeat constructor; done.
  - apply IH. rewrite elem_of_app, list_elem_of_singleton.
    intros [Hin|Heq]; [done|congruence].
Qed.

(** ** Splitting a string at its first delimiter, or after its leading
    delimiters *)

Lemma span_free ch str :
  ∃ token rest, str = token ++ rest ∧ (ch ∉ token)
    ∧ (rest = [] ∨ ∃ rest', rest = ch :: rest').
Proof.
  induction str as [|a str (token & rest & -> & Hch & Hrest)].
  { exists [], []. split_and!; [done|apply not_elem_of_nil|by left]. }
  destruct (decide (a = ch)) as [->|Hne].
  - exists [], (ch :: token ++ rest).
    split_and!; [done|apply not_elem_of_nil|right; eauto].
  - exists (a :: token), rest. split_and!; [done| |done].
    apply not_elem_of_cons. split; [congruence|done].
Qed.

Lemma span_delimiters ch str :
  ∃ delims rest, str = delims ++ rest ∧ Forall (λ a, a = ch) delims
    ∧ (rest = [] ∨ ∃ b rest', rest = b :: rest' ∧ b ≠ ch).
Proof.
  induction str as [|a str (delims & rest & -> & Hd & Hrest)].
  { exists [], []. split_and!; [done|constructor|by left]. }
  destruct (decide (a = ch)) as [->|Hne].
  - exists (ch :: delims), rest. split_and!; [done|by constructor|done].
  - exists [], (a :: delims ++ rest). split_and!; [done|constructor|].
    right. eauto.
Qed.

Lemma list_find_not_delimiters ch delims :
  Forall (λ a, a = ch) delims → list_find (λ a, a ≠ ch) delims = None.
Proof.
  intros Hd. apply list_find_None. eapply Forall_impl; [exact Hd|].
  intros a -> Hne. by apply Hne.
Qed.

Lemma list_find_not_after ch delims b rest :
  Forall (λ a, a = ch) delims → b ≠ ch →
  list_find (λ a, a ≠ ch) (delims ++ b :: rest) = Some (length delims, b).
Proof.
  intros Hd Hb. rewrite list_find_app_r by by apply list_find_not_delimiters.
  simpl. by rewrite decide_True.
Qed.

(** ** [Tokenize] computes [tokens_of] *)

Lemma Tokenize_loop_tokens_of str ch :
  (size str < npos)%N →
  ∀ fuel pre a rest tokens,
    str = pre ++ a :: rest → a ≠ ch → length (a :: rest) ≤ fuel →
    Tokenize_loop fuel str ch (size pre) tokens
    = Some (Returned (tokens ++ tokens_of ch (a :: rest) [])).
Proof.
  intros Hsz. induction fuel as [|fuel IH]; intros pre a rest tokens Hstr Ha Hfuel.
  { simpl in Hfuel. lia. }
  destruct (span_free ch (a :: rest)) as (token & r & Hsplit & Hfree & Hr).
  assert (token ≠ []) as Htoken.
  { intros ->. destruct Hr as [->|[r' ->]]; simpl in Hsplit; congruence. }
  assert (size str = size pre + size token + size r)%N as Hsize.
  { rewrite Hstr, Hsplit, !size_app. lia. }
  assert (0 < size token)%N as Hpos.
  { destruct token; [done|]. unfold size. simpl. lia. }
  assert (length token + length r ≤ S fuel) as Hlen.
  { apply (f_equal length) in Hsplit. rewrite length_app in Hsplit. lia. }
  rewrite Hsplit in Hstr |- *. clear Hsplit Hfuel.
  destruct Hr as [->|[r' ->]].
  - rewrite (Tokenize_loop_step _ _ _ _ npos token).
    + rewrite find_first_not_of_npos by done. rewrite Tokenize_loop_done.
      rewrite app_nil_r. by rewrite tokens_of_free.
    + unfold npos in *. lia.
    + rewrite Hstr, app_nil_r, find_at. by rewrite list_find_absent.
    + rewrite Hstr. apply substr_at. right. split; [done|].
      rewrite size_t_sub_le; unfold npos in *; lia.
  - change (size (ch :: r')) with (N.of_nat (S (length r'))) in Hsize.
    rewrite (Tokenize_loop_step _ _ _ _ (size pre + size token)%N token);
      cycle 1.
    { unfold npos in *. lia. }
    { rewrite Hstr, find_at. by rewrite list_find_first. }
    { rewrite Hstr. apply substr_at. left.
      rewrite size_t_sub_le; unfold npos in *; lia. }
    rewrite tokens_of_token by done.
    destruct (span_delimiters ch r') as (delims & r3 & -> & Hd & Hr3).
    assert (find_first_not_of str ch (size pre + size token)
            = match list_find (λ a, a ≠ ch) (ch :: delims ++ r3) with
              | Some (i, _) => (size (pre ++ token) + N.of_nat i)%N
              | None => npos
              end) as ->.
    { rewrite Hstr, (app_assoc pre token), <- size_app.
      apply find_first_not_of_at. }
    destruct Hr3 as [->|(b & r3' & -> & Hb)].
    + rewrite app_nil_r. rewrite (list_find_not_delimiters ch (ch :: delims))
        by by constructor.
      rewrite Tokenize_loop_done.
      rewrite <- (app_nil_r delims) at 1. rewrite tokens_of_delimiters by done.
      done.
    + change (ch :: delims ++ b :: r3') with ((ch :: delims) ++ b :: r3').
      rewrite (list_find_not_after ch (ch :: delims) b r3')
        by (done || by constructor).
      replace (size (pre ++ token) + N.of_nat (length (ch :: delims)))%N
        with (size ((pre ++ token) ++ ch :: delims))
        by (rewrite (size_app (pre ++ token)); done).
      rewrite (IH _ b r3').
      * rewrite tokens_of_delimiters by done. by rewrite <- app_assoc.
      * rewrite Hstr. by rewrite <- !app_assoc.
      * done.
      * simpl in *. rewrite length_app in Hlen. simpl in *.
        unfold size in Hpos. lia.
Qed.

Lemma Tokenize_tokens_of str ch :
  (size str < npos)%N →
  Tokenize str ch = Some (Returned (tokens_of ch str [])).
Proof.
  intros Hsz. unfold Tokenize. rewrite find_first_not_of_at_0.
  destruct (span_delimiters ch str) as (delims & r & Hstr & Hd & Hr).
  destruct Hr as [->|(b & r' & -> & Hb)].
  - rewrite app_nil_r in Hstr. subst str.
    rewrite list_find_not_delimiters, Tokenize_loop_done by done.
    rewrite <- (app_nil_r delims). by rewrite tokens_of_delimiters.
  - assert (list_find (λ a, a ≠ ch) str = Some (length delims, b)) as ->
      by (rewrite Hstr; by apply list_find_not_after).
    change (N.of_nat (length delims)) with (size delims).
    rewrite (Tokenize_loop_tokens_of str ch Hsz _ delims b r' []); [|done..|].
    + rewrite Hstr at 1. by rewrite tokens_of_delimiters.
    + apply (f_equal length) in Hstr. rewrite length_app in Hstr.
      simpl in *. lia.
Qed.

(** X10. [Tokenize] returns for every string, and what it returns are
    fields: no token is empty and no token contains the delimiter. *)
Theorem Tokenize_tokens_are_fields str ch :
  (size str < npos)%N →
  ∃ tokens, Tokenize str ch = Some (Returned tokens)
    ∧ Forall (λ token, token ≠ [] ∧ ch ∉ token) tokens.
Proof.
  intros Hsz. exists (tokens_of ch str []). split.
  - by apply Tokenize_tokens_of.
  - apply tokens_of_valid, not_elem_of_nil.
Qed.

(** X11. [Tokenize] distributes over a delimiter: the tokens of
    [str1 ++ delimiter :: str2] are the tokens of [str1] followed by
    those of [str2].  So leading, trailing and repeated delimiters add
    nothing. *)
Theorem Tokenize_app str1 str2 ch :
  (size (str1 ++ ch :: str2) < npos)%N →
  ∃ tokens1 tokens2,
    Tokenize str1 ch = Some (Returned tokens1)
    ∧ Tokenize str2 ch = Some (Returned tokens2)
    ∧ Tokenize (str1 ++ ch :: str2) ch = Some (Returned (tokens1 ++ tokens2)).
Proof.
  intros Hsz. pose proof Hsz as Hsz'.
  rewrite size_app in Hsz'. unfold size in Hsz'. simpl in Hsz'.
  exists (tokens_of ch str1 []), (tokens_of ch str2 []).
  rewrite !Tokenize_tokens_of by (done || (unfold size; lia)).
  by rewrite tokens_of_app.
Qed.

(** X12. [Tokenize] undoes joining: for non-empty tokens without the
    delimiter, written one after the other with a delimiter after each,
    [Tokenize] returns exactly these tokens. *)
Theorem Tokenize_join tokens ch :
  Forall (λ token, token ≠ [] ∧ ch ∉ token) tokens →
  (size (foldr (λ token acc, token ++ ch :: acc) [] tokens) < npos)%N →
  Tokenize (foldr (λ token acc, token ++ ch :: acc) [] tokens) ch
  = Some (Returned tokens).
Proof.
  intros Hvalid Hsz. rewrite Tokenize_tokens_of by done. do 2 f_equal.
  clear Hsz. induction Hvalid as [|token tokens [Hne Hch] _ IH]; [done|].
  simpl. rewrite tokens_of_token by done. by rewrite IH.
Qed.

(** ** [Retrive] through the tokens *)

Lemma Retrive_tokens_of key :
  (size key < npos)%N →
  Retrive key =
    match tokens_of ":"%char key [] with
    | first :: second :: _ =>
        match stoi second with
        | Returned port => Some (Returned (first, port))
        | Thrown e => Some (Thrown e)
        | Undefined => Some Undefined
        end
    | _ => Some Undefined
    end.
Proof.
  intros Hsz. unfold Retrive. rewrite Tokenize_tokens_of by done.
  by destruct (tokens_of ":"%char key []) as [|first [|second rest]].
Qed.

Lemma stoi_range str (z : Z) :
  stoi str = Returned z → (INT_MIN ≤ z ≤ INT_MAX)%Z.
Proof.
  unfold stoi.
  destruct (match skip_spaces str with
            | [] => (false, skip_spaces str)
            | a :: s' => _
            end) as [negative s].
  destruct s as [|a s]; [done|]. destruct (isdigit a); [|done].
  destruct (_ || _)%bool eqn:Hrange; [done|]. intros [= <-].
  apply orb_false_iff in Hrange as [Hl Hu].
  apply Z.ltb_ge in Hl, Hu. done.
Qed.

(** X13. What [Retrive] returns is always a host that is non-empty and
    free of [':'], with a port in the range of [int]: no key parses to
    an empty host or to a host with a delimiter in it. *)
Theorem Retrive_returns_fields key host (port : Z) :
  (size key < npos)%N → Retrive key = Some (Returned (host, port)) →
  host ≠ [] ∧ (":"%char ∉ host) ∧ (INT_MIN ≤ port ≤ INT_MAX)%Z.
Proof.
  intros Hsz. rewrite Retrive_tokens_of by done.
  pose proof (tokens_of_valid ":"%char key [] (not_elem_of_nil _)) as Hvalid.
  destruct (tokens_of ":"%char key []) as [|first [|second rest]];
    [by intros [=]..|].
  apply Forall_cons in Hvalid as [[Hne Hch] _].
  destruct (stoi second) as [z| |] eqn:Hstoi; [|by intros [=]..].
  intros [= -> ->]. split; [done|]. split; [done|]. by eapply stoi_range.
Qed.

(** X14. For a port in the range of [int], [Retrive] gives back the
    pair [Combined] was applied to exactly when the host is non-empty
    and contains no [':']. *)
Theorem round_trip_iff host (port : Z) :
  (INT_MIN ≤ port ≤ INT_MAX)%Z → (size (Combined (host, port)) < npos)%N →
  Retrive (Combined (host, port)) = Some (Returned (host, port))
  ↔ host ≠ [] ∧ (":"%char ∉ host).
Proof.
  intros Hport Hsz. split.
  - rewrite Retrive_tokens_of by done.
    pose proof (tokens_of_valid ":"%char (Combined (host, port)) []
                  (not_elem_of_nil _)) as Hvalid.
    destruct (tokens_of ":"%char (Combined (host, port)) [])
      as [|first [|second rest]]; [by intros [=]..|].
    apply Forall_cons in Hvalid as [Hfirst _].
    destruct (stoi second); [|by intros [=]..]. by intros [= -> _].
  - intros [Hne Hch]. unfold Combined in *. simpl fst in *. simpl snd in *.
    destruct (show_int_token port) as [Ht Htc].
    rewrite Retrive_two by done. by rewrite stoi_show_int.
Qed.

Lemma show_N_inj (n1 n2 : N) : show_N n1 = show_N n2 → n1 = n2.
Proof.
  intros Heq.
  destruct (show_N_spec n1) as (a1 & s1 & E1 & _ & V1).
  destruct (show_N_spec n2) as (a2 & s2 & E2 & _ & V2).
  rewrite E1, E2 in Heq. rewrite Heq in V1. lia.
Qed.

Lemma show_int_inj (z1 z2 : Z) : show_int z1 = show_int z2 → z1 = z2.
Proof.
  assert (∀ n s, show_N n ≠ "-"%char :: s) as Hminus.
  { intros n s Heq. destruct (show_N_spec n) as (a & s' & E & Hdig & _).
    rewrite E in Heq. apply Forall_cons in Hdig as [Ha _].
    injection Heq as -> _. vm_compute in Ha. discriminate. }
  unfold show_int.
  destruct (Z.ltb_spec z1 0), (Z.ltb_spec z2 0); intros Heq.
  - injection Heq as Heq. apply show_N_inj in Heq. lia.
  - symmetry in Heq. by apply Hminus in Heq.
  - by apply Hminus in Heq.
  - apply show_N_inj in Heq. lia.
Qed.

Lemma app_delimiter_inj ch str1 str2 token1 token2 :
  ch ∉ token1 → ch ∉ token2 →
  str1 ++ ch :: token1 = str2 ++ ch :: token2 →
  str1 = str2 ∧ token1 = token2.
Proof.
  intros H1 H2. revert str2.
  induction str1 as [|a str1 IH]; intros [|b str2]; simpl; intros Heq.
  - by injection Heq as ->.
  - injection Heq as <- ->. destruct H1.
    rewrite elem_of_app, elem_of_cons. auto.
  - injection Heq as -> <-. destruct H2.
    rewrite elem_of_app, elem_of_cons. auto.
  - injection Heq as -> Heq. apply IH in Heq as [-> ->]. done.
Qed.

(** X15. [Combined] is injective: two different (host, port) pairs
    never get the same cache key, whatever the host contains. *)
Theorem Combined_inj host1 (port1 : Z) host2 (port2 : Z) :
  Combined (host1, port1) = Combined (host2, port2) →
  host1 = host2 ∧ port1 = port2.
Proof.
  unfold Combined. simpl. intros Heq.
  destruct (show_int_token port1) as [_ Hc1].
  destruct (show_int_token port2) as [_ Hc2].
  apply app_delimiter_inj in Heq as [-> Heq]; [|done..].
  split; [done|]. by apply show_int_inj.
Qed.

Lemma stoi_show_int_out_of_range (z : Z) :
  ¬ (INT_MIN ≤ z ≤ INT_MAX)%Z →
  stoi (show_int z) = Thrown (out_of_range "stoi").
Proof.
  intros Hz.
  assert (((z <? INT_MIN) || (INT_MAX <? z))%Z = true) as Hrange.
  { apply orb_true_iff.
    destruct (Z.ltb_spec z INT_MIN); [by left|right].
    apply Z.ltb_lt. lia. }
  unfold show_int. destruct (Z.ltb_spec z 0) as [Hneg|Hpos].
  - destruct (show_N_spec (Z.to_N (- z))) as (a & s & -> & Hdig & Hval).
    apply Forall_cons in Hdig as [Ha _].
    rewrite stoi_negative, Hval by done. cbv zeta.
    replace (- Z.of_N (Z.to_N (- z)))%Z with z by lia.
    by rewrite Hrange.
  - destruct (show_N_spec (Z.to_N z)) as (a & s & -> & Hdig & Hval).
    apply Forall_cons in Hdig as [Ha _].
    rewrite stoi_unsigned, Hval by done. cbv zeta.
    replace (Z.of_N (Z.to_N z)) with z by lia.
    by rewrite Hrange.
Qed.

(** X16. A key whose port is a decimal number that no [int] holds makes
    [Retrive] throw [out_of_range]: the port is neither wrapped around
    nor cut. *)
Theorem Retrive_port_out_of_range host (port : Z) :
  host ≠ [] → ":"%char ∉ host → ¬ (INT_MIN ≤ port ≤ INT_MAX)%Z →
  (size (host ++ [":"%char] ++ show_int port) < npos)%N →
  Retrive (host ++ [":"%char] ++ show_int port)
  = Some (Thrown (out_of_range "stoi")).
Proof.
  intros Hne Hch Hport Hsz. destruct (show_int_token port) as [Ht Htc].
  rewrite Retrive_two by done. by rewrite stoi_show_int_out_of_range.
Qed.

(** X17. [Retrive] reads the first two tokens and nothing else: for a
    key with two tokens or more, delimiters put in front of it and
    anything put after one more delimiter do not change the outcome,
    be it a pair or an exception of [stoi]. *)
Theorem Retrive_ignores_surroundings key (n : nat) junk :
  (size (replicate n ":"%char ++ key ++ ":"%char :: junk) < npos)%N →
  Retrive key ≠ Some Undefined →
  Retrive (replicate n ":"%char ++ key ++ ":"%char :: junk) = Retrive key.
Proof.
  intros Hsz. pose proof Hsz as Hsz'.
  rewrite !size_app in Hsz'. unfold size in Hsz'. simpl in Hsz'.
  rewrite !Retrive_tokens_of by (done || (unfold size; lia)).
  rewrite tokens_of_delimiters by (apply Forall_forall; by intros a ?%elem_of_replicate_inv).
  rewrite tokens_of_app.
  by destruct (tokens_of ":"%char key []) as [|first [|second rest]].
Qed.

(** ** At concrete keys *)

Lemma Tokenize_tokens_are_fields_witness :
  let str := list_ascii_of_string "::a::b:80:" in
  (size str < npos)%N
  ∧ ∃ tokens, Tokenize str ":"%char = Some (Returned tokens)
      ∧ Forall (λ token, token ≠ [] ∧ ":"%char ∉ token) tokens.
Proof.
  intros str. assert (size str < npos)%N as Hsz by reflexivity.
  split; [exact Hsz|]. exact (Tokenize_tokens_are_fields str ":"%char Hsz).
Defined.

Lemma Tokenize_app_witness :
  let str1 := list_ascii_of_string "127.0.0.1" in
  let str2 := list_ascii_of_string "80" in
  (size (str1 ++ ":"%char :: str2) < npos)%N
  ∧ ∃ tokens1 tokens2,
      Tokenize str1 ":"%char = Some (Returned tokens1)
      ∧ Tokenize str2 ":"%char = Some (Returned tokens2)
      ∧ Tokenize (str1 ++ ":"%char :: str2) ":"%char
        = Some (Returned (tokens1 ++ tokens2)).
Proof.
  intros str1 str2.
  assert (size (str1 ++ ":"%char :: str2) < npos)%N as Hsz by reflexivity.
  split; [exact Hsz|]. exact (Tokenize_app str1 str2 ":"%char Hsz).
Defined.

Lemma Tokenize_join_witness :
  let tokens := [list_ascii_of_string "localhost"; list_ascii_of_string "80"] in
  (Forall (λ token, token ≠ [] ∧ ":"%char ∉ token) tokens
   ∧ (size (foldr (λ token acc, token ++ ":"%char :: acc) [] tokens) < npos)%N)
  ∧ Tokenize (foldr (λ token acc, token ++ ":"%char :: acc) [] tokens) ":"%char
    = Some (Returned tokens).
Proof.
  intros tokens.
  assert (Forall (λ token, token ≠ [] ∧ ":"%char ∉ token) tokens) as Hvalid.
  { constructor; [|constructor; [|constructor]];
      (split; [done|apply (bool_decide_unpack _); vm_compute; exact I]). }
  assert (size (foldr (λ token acc, token ++ ":"%char :: acc) [] tokens)
          < npos)%N as Hsz by reflexivity.
  split; [split; [exact Hvalid|exact Hsz]|].
  exact (Tokenize_join tokens ":"%char Hvalid Hsz).
Defined.

Lemma Retrive_returns_fields_witness :
  let key := list_ascii_of_string "127.0.0.1:80" in
  let host := list_ascii_of_string "127.0.0.1" in
  ((size key < npos)%N ∧ Retrive key = Some (Returned (host, 80%Z)))
  ∧ (host ≠ [] ∧ (":"%char ∉ host) ∧ (INT_MIN ≤ 80 ≤ INT_MAX)%Z).
Proof.
  intros key host.
  assert (size key < npos)%N as Hsz by reflexivity.
  assert (Retrive key = Some (Returned (host, 80%Z))) as HR by reflexivity.
  split; [split; [exact Hsz|exact HR]|].
  exact (Retrive_returns_fields key host 80%Z Hsz HR).
Defined.

Lemma round_trip_iff_witness :
  let host := list_ascii_of_string "192.168.0.1" in
  ((INT_MIN ≤ 443 ≤ INT_MAX)%Z ∧ (size (Combined (host, 443%Z)) < npos)%N)
  ∧ (Retrive (Combined (host, 443%Z)) = Some (Returned (host, 443%Z))
     ↔ host ≠ [] ∧ (":"%char ∉ host)).
Proof.
  intros host.
  assert (INT_MIN ≤ 443 ≤ INT_MAX)%Z as Hport by done.
  assert (size (Combined (host, 443%Z)) < npos)%N as Hsz by reflexivity.
  split; [split; [exact Hport|exact Hsz]|].
  exact (round_trip_iff host 443%Z Hport Hsz).
Defined.

Lemma Combined_inj_witness :
  let host := list_ascii_of_string "127.0.0.1" in
  Combined (host, 80%Z) = Combined (host, 80%Z)
  ∧ (host = host ∧ 80%Z = 80%Z).
Proof.
  intros host.
  assert (Combined (host, 80%Z) = Combined (host, 80%Z)) as Heq by reflexivity.
  split; [exact Heq|]. exact (Combined_inj host 80%Z host 80%Z Heq).
Defined.

Lemma Retrive_port_out_of_range_witness :
  let host := list_ascii_of_string "localhost" in
  (host ≠ [] ∧ (":"%char ∉ host) ∧ ¬ (INT_MIN ≤ 2147483648 ≤ INT_MAX)%Z
   ∧ (size (host ++ [":"%char] ++ show_int 2147483648) < npos)%N)
  ∧ Retrive (host ++ [":"%char] ++ show_int 2147483648)
    = Some (Thrown (out_of_range "stoi")).
Proof.
  intros host.
  assert (":"%char ∉ host) as Hch.
  { apply (bool_decide_unpack _). vm_compute. exact I. }
  assert (¬ (INT_MIN ≤ 2147483648 ≤ INT_MAX)%Z) as Hport.
  { unfold INT_MIN, INT_MAX. lia. }
  assert (size (host ++ [":"%char] ++ show_int 2147483648) < npos)%N as Hsz
    by reflexivity.
  split; [split_and!; [done|exact Hch|exact Hport|exact Hsz]|].
  apply (Retrive_port_out_of_range host 2147483648%Z);
    [done|exact Hch|exact Hport|exact Hsz].
Defined.

Lemma Retrive_ignores_surroundings_witness :
  let key := list_ascii_of_string "localhost:80" in
  let junk := list_ascii_of_string "tcp:x" in
  ((size (replicate 2 ":"%char ++ key ++ ":"%char :: junk) < npos)%N
   ∧ Retrive key ≠ Some Undefined)
  ∧ Retrive (replicate 2 ":"%char ++ key ++ ":"%char :: junk) = Retrive key.
Proof.
  intros key junk.
  assert (size (replicate 2 ":"%char ++ key ++ ":"%char :: junk) < npos)%N
    as Hsz by reflexivity.
  assert (Retrive key ≠ Some Undefined) as Hdef by (vm_compute; discriminate).
  split; [split; [exact Hsz|exact Hdef]|].
  exact (Retrive_ignores_surroundings key 2 junk Hsz Hdef).
Defined.

End TCB_laws.

(** * The cache of connection records *)

Module TCB_cache_laws.
Import LRU LRU_facts LRU_laws.

Lemma tcb_step_step c c' : TCB.tcb_step c c' → step c c'.
Proof.
  destruct 1 as [c key tcb r c' t HP|c key r c' t HG].
  - by eapply step_Put.
  - by eapply step_Get.
Qed.

Lemma TCB_callback_returns e : returns_on (Some TCB.callback_) e.
Proof. done. Qed.

(** What holds in every state of [tcb_cache_]. *)
Lemma tcb_cache_states c :
  rtc TCB.tcb_step TCB.tcb_cache_ c →
  Inv c ∧ max_size_ c = 1 ∧ callback_ c = Some TCB.callback_
  ∧ length (items c) ≤ 1.
Proof.
  intros Hr. eapply rtc_subrel in Hr; [|apply tcb_step_step].
  pose proof (Inv_new 1 (Some TCB.callback_)) as HI0.
  pose proof (rtc_step_Inv _ _ Hr HI0) as HI.
  destruct (rtc_step_configuration _ _ Hr HI0) as [Hm Hc].
  split_and!; [done..|].
  apply rtc_step_quiet in Hr; [|done|apply TCB_callback_returns].
  apply rtc_step_returning_bound in Hr as (_ & Hb & Hm'); [|done|].
  - rewrite <- (Inv_Size_items c HI). unfold TCB.tcb_cache_ in *.
    simpl in *. lia.
  - unfold Size. simpl. rewrite map_size_empty. lia.
Qed.

Lemma Combined_ne key1 key2 : key1 ≠ key2 → TCB.Combined key1 ≠ TCB.Combined key2.
Proof.
  destruct key1 as [host1 port1], key2 as [host2 port2].
  intros Hne Heq. apply Hne. unfold TCB.Combined in Heq. simpl in Heq.
  destruct (TCB_facts.show_int_token port1) as [_ Hc1].
  destruct (TCB_facts.show_int_token port2) as [_ Hc2].
  apply TCB_laws.app_delimiter_inj in Heq as [-> Heq]; [|done..].
  by apply TCB_laws.show_int_inj in Heq as ->.
Qed.


(** X19. [tcb_cache_] never holds more than one record, and a
    [TCB::Get] either returns or throws [range_error]: it has no other
    outcome. *)
Theorem tcb_cache_bound c key :
  rtc TCB.tcb_step TCB.tcb_cache_ c →
  Size c ≤ 1
  ∧ ((TCB.Get key c).1.1 = Returned TCB.TCB_object
     ∨ (TCB.Get key c).1.1
       = Thrown (range_error "There is no such key in cache")).
Proof.
  intros Hr. destruct (tcb_cache_states c Hr) as (HI & Hm & Hc & Hlen).
  split; [by rewrite (Inv_Size_items c HI)|].
  destruct (Get_run c (TCB.Combined key) HI) as (c' & HG & _).
  unfold TCB.Get. rewrite HG. simpl. unfold Get_items.
  destruct (find_key _ _) as [[]|]; [by left|by right].
Qed.

(** X20. The cache remembers one connection: after [TCB::Put(key1)] and
    [TCB::Put(key2)] for two different pairs, [CleanUp] has been called
    on the record of [key1] during the second [Put], and [TCB::Get(key1)]
    throws [range_error]. *)
Theorem tcb_cache_forgets_previous c key1 tcb1 key2 tcb2 :
  rtc TCB.tcb_step TCB.tcb_cache_ c → key1 ≠ key2 →
  ∃ c1 t1 c2,
    TCB.Put key1 tcb1 c = (Returned tt, c1, t1)
    ∧ TCB.Put key2 tcb2 c1 = (Returned tt, c2, [(TCB.Combined key1, tcb1)])
    ∧ TCB.Get key1 c2
      = (Thrown (range_error "There is no such key in cache"), c2, []).
Proof.
  intros Hr Hne. destruct (tcb_cache_states c Hr) as (HI & Hm & Hc & Hlen).
  apply Combined_ne in Hne.
  destruct (capacity_one_Put c (TCB.Combined key1) tcb1 HI Hm)
    as (c1 & HP1 & Hits1 & HI1 & Hm1 & Hc1); [|done|].
  { rewrite Hc. apply TCB_callback_returns. }
  destruct (capacity_one_Put c1 (TCB.Combined key2) tcb2 HI1)
    as (c2 & HP2 & Hits2 & HI2 & _ & _); [congruence| |by rewrite Hits1|].
  { rewrite Hc1, Hc. apply TCB_callback_returns. }
  rewrite Hc1, Hc, Hits1 in HP2. simpl in HP2.
  unfold drop_key in HP2. rewrite filter_cons_True in HP2 by done.
  eexists c1, _, c2. split_and!; [exact HP1|exact HP2|].
  apply Get_absent. rewrite (Inv_Exists c2 _ HI2).
  apply bool_decide_eq_false. unfold keys. rewrite Hits2. simpl.
  intros Hin%list_elem_of_singleton. done.
Qed.

(** ** At the calls of [main] *)


Lemma tcb_cache_bound_witness :
  let key := (list_ascii_of_string "127.0.0.1", 80%Z) in
  rtc TCB.tcb_step TCB.tcb_cache_ TCB.tcb_cache_
  ∧ (Size TCB.tcb_cache_ ≤ 1
     ∧ ((TCB.Get key TCB.tcb_cache_).1.1 = Returned TCB.TCB_object
        ∨ (TCB.Get key TCB.tcb_cache_).1.1
          = Thrown (range_error "There is no such key in cache"))).
Proof.
  intros key.
  assert (rtc TCB.tcb_step TCB.tcb_cache_ TCB.tcb_cache_) as Hr
    by apply rtc_refl.
  split; [exact Hr|]. exact (tcb_cache_bound TCB.tcb_cache_ key Hr).
Defined.

Lemma tcb_cache_forgets_previous_witness :
  let key1 := (list_ascii_of_string "127.0.0.1", 80%Z) in
  let key2 := (list_ascii_of_string "192.168.0.1", 443%Z) in
  (rtc TCB.tcb_step TCB.tcb_cache_ TCB.tcb_cache_ ∧ key1 ≠ key2)
  ∧ ∃ c1 t1 c2,
      TCB.Put key1 TCB.TCB_object TCB.tcb_cache_ = (Returned tt, c1, t1)
      ∧ TCB.Put key2 TCB.TCB_object c1
        = (Returned tt, c2, [(TCB.Combined key1, TCB.TCB_object)])
      ∧ TCB.Get key1 c2
        = (Thrown (range_error "There is no such key in cache"), c2, []).
Proof.
  intros key1 key2.
  assert (rtc TCB.tcb_step TCB.tcb_cache_ TCB.tcb_cache_) as Hr
    by apply rtc_refl.
  assert (key1 ≠ key2) as Hne by (intros Heq; discriminate Heq).
  split; [split; [exact Hr|exact Hne]|].
  exact (tcb_cache_forgets_previous TCB.tcb_cache_ key1 TCB.TCB_object
           key2 TCB.TCB_object Hr Hne).
Defined.

End TCB_cache_laws.
